(** * gitmopy: a shallow embedding of the commit-message, completion,
    configuration and remote-orchestration code of [gitmopy]

    Python [str] values are sequences of Unicode code points; they are
    modelled as [list Z].  Literals of the source are written as Rocq
    strings and converted with [s2l]; the two non-ASCII literals of
    [format_remotes_diff] (the arrows) are written as code points. *)

From Stdlib Require Import ZArith List String Ascii Bool Lia Sorted Permutation.
From stdpp Require Import base gmap list.

Import ListNotations.

(** ** Python strings *)
Module PyStr.

Local Open Scope Z_scope.

Definition pystr := list Z.

(** Conversion of an ASCII literal of the source into code points. *)
Definition s2l (s : string) : pystr :=
  map (fun c => Z.of_nat (nat_of_ascii c)) (list_ascii_of_string s).

(** [str.isspace] for one code point: the Unicode whitespace set of
    CPython ([_PyUnicode_IsWhitespace]). *)
Definition py_isspace (c : Z) : bool :=
  ((9 <=? c) && (c <=? 13)) || ((28 <=? c) && (c <=? 32)) ||
  (c =? 133) || (c =? 160) || (c =? 5760) ||
  ((8192 <=? c) && (c <=? 8202)) || (c =? 8232) || (c =? 8233) ||
  (c =? 8239) || (c =? 8287) || (c =? 12288).

Fixpoint lstrip (s : pystr) : pystr :=
  match s with
  | [] => []
  | c :: r => if py_isspace c then lstrip r else s
  end.

Definition rstrip (s : pystr) : pystr := rev (lstrip (rev s)).

(** [str.strip()] with no argument. *)
Definition py_strip (s : pystr) : pystr := rstrip (lstrip s).

(** Case mapping of one code point.  The ASCII letters are mapped as
    CPython does; code points outside ASCII are left as they are (the
    Unicode case tables are not part of this model). *)
Definition py_lower1 (c : Z) : pystr :=
  if (65 <=? c) && (c <=? 90) then [c + 32] else [c].

Definition py_upper1 (c : Z) : pystr :=
  if (97 <=? c) && (c <=? 122) then [c - 32] else [c].

(** Title case of one code point: the upper case for ASCII. *)
Definition py_title1 (c : Z) : pystr := py_upper1 c.

(** [str.lower()] and [str.upper()]. *)
Definition py_lower (s : pystr) : pystr := flat_map py_lower1 s.
Definition py_upper (s : pystr) : pystr := flat_map py_upper1 s.

(** [str.capitalize()] (Python >= 3.8): title case for the first code
    point, lower case for all the others. *)
Definition py_capitalize (s : pystr) : pystr :=
  match s with
  | [] => []
  | c :: r => py_title1 c ++ py_lower r
  end.

Fixpoint startswith (s p : pystr) : bool :=
  match p, s with
  | [], _ => true
  | c :: p', d :: s' => Z.eqb c d && startswith s' p'
  | _ :: _, [] => false
  end.

Definition str_eqb (a b : pystr) : bool :=
  bool_decide (a = b).

End PyStr.

Import PyStr.

(** ** Python dictionaries *)
Module PyDict.

(** A Python [dict] as an association list in insertion order:
    assignment to an existing key keeps its position. *)
Fixpoint dict_set {V} (d : list (pystr * V)) (k : pystr) (v : V) : list (pystr * V) :=
  match d with
  | [] => [(k, v)]
  | (k', v') :: r => if str_eqb k' k then (k, v) :: r else (k', v') :: dict_set r k v
  end.

Fixpoint dict_get {V} (d : list (pystr * V)) (k : pystr) : option V :=
  match d with
  | [] => None
  | (k', v') :: r => if str_eqb k' k then Some v' else dict_get r k
  end.

End PyDict.

Import PyDict.

(** ** [gitmopy/utils.py] *)
Module Utils.

Local Open Scope Z_scope.

(** The commit dictionary produced by [commit_prompt]. *)
Record CommitDict := {
  emoji : pystr;
  scope : pystr;
  title : pystr;
  message : pystr
}.

(** [message_from_commit_dict]:
<<
    message = f"{commit_dict['emoji']} "
    if commit_dict["scope"]:
        message += f"({commit_dict['scope']}): "
    message += f"{commit_dict['title']}\n\n{commit_dict['message']}"
    return message.strip()
>> *)
Definition message_from_commit_dict (d : CommitDict) : pystr :=
  let m0 := emoji d ++ s2l " " in
  let m1 := match scope d with
            | [] => m0
            | _ => m0 ++ s2l "(" ++ scope d ++ s2l "): "
            end in
  let m2 := m1 ++ title d ++ [10; 10] ++ message d in
  py_strip m2.

(** [safe_capitalize]. *)
Definition safe_capitalize (s : pystr) : pystr :=
  match s with
  | [] => s
  | [c] => py_upper s
  | c :: r => py_upper [c] ++ r
  end.

(** Stable insertion of [x] into a list ordered by [le]: [x] goes after
    every element [y] with [le y x]. *)
Fixpoint insert_by {A} (le : A -> A -> bool) (x : A) (l : list A) : list A :=
  match l with
  | [] => [x]
  | y :: r => if le y x then y :: insert_by le x r else x :: y :: r
  end.

(** Python's [sorted]: a stable sort (CPython's timsort is stable). *)
Definition sort_by {A} (le : A -> A -> bool) (l : list A) : list A :=
  fold_left (fun acc x => insert_by le x acc) l [].

(** Code-point order of Python strings ([str.__le__]). *)
Fixpoint str_leb (a b : pystr) : bool :=
  match a, b with
  | [], _ => true
  | _ :: _, [] => false
  | x :: a', y :: b' => (x <? y) || ((x =? y) && str_leb a' b')
  end.

(** The configuration, a [Dict[str, bool]]. *)
Definition Config := gmap pystr bool.

(** [DEFAULT_CONFIG], built from [DEFAULT_CHOICES]. *)
Definition DEFAULT_CONFIG : Config :=
  <[s2l "skip_scope" := false]> (<[s2l "skip_message" := false]>
  (<[s2l "capitalize_title" := true]> (<[s2l "enable_history" := true]> ∅))).

(** [yaml.safe_dump] of a flat [Dict[str, bool]]: one [key: value] line
    per entry, keys in sorted order ([sort_keys=True] by default).  Keys
    are taken to be plain YAML scalars (no quoting). *)
Definition yaml_bool (b : bool) : pystr := if b then s2l "true" else s2l "false".

Definition safe_dump (config : Config) : pystr :=
  flat_map (fun kv => fst kv ++ s2l ": " ++ yaml_bool (snd kv) ++ [10])
    (sort_by (fun a b => str_leb (fst a) (fst b)) (map_to_list config)).

(** The part of the file system [save_config] touches:
    [${APP_PATH}/config.yaml] ([None] when absent), the directory
    [APP_PATH], whether its parent directory exists, and
    [str(yaml_path)]. *)
Record FS := {
  config_yaml : option pystr;
  app_path_exists : bool;
  app_parent_exists : bool;
  config_path : pystr
}.

(** [save_config]: print a notice when the file is new, create the
    directory ([mkdir(exist_ok=True)], without [parents=True]: it raises
    [FileNotFoundError] when the parent of [APP_PATH] is missing), write
    [safe_dump(config)], print ["✅ Config updated"].  The result is the
    new file system and the printed lines ([print(a, b)] joins its
    arguments with a space), or [None] for the [FileNotFoundError],
    raised before anything is written. *)
Definition save_config (config : Config) (fs : FS) : option (FS * list pystr) :=
  let notice := match config_yaml fs with
                | None => [s2l "[bold yellow] Creating config file [/bold yellow]" ++ [32]
                           ++ config_path fs]
                | Some _ => []
                end in
  if app_path_exists fs || app_parent_exists fs then
    Some ({| config_yaml := Some (safe_dump config); app_path_exists := true;
             app_parent_exists := app_parent_exists fs; config_path := config_path fs |},
          notice ++ [[9989] ++ s2l " Config updated"])
  else None.

(** The outcome of a function whose [assert] statements may fail. *)
Inductive Asserted (A : Type) :=
| AOk (a : A)
| AssertionError.
Arguments AOk {A} a.
Arguments AssertionError {A}.

(** [sep * n]: [n] copies of [sep], none when [n <= 0]. *)
Definition str_mul (s : pystr) (n : Z) : pystr := concat (repeat s (Z.to_nat n)).

(** [choice_separator(title, width, sep)]: the line of the returned
    [Separator].
<<
    assert sep
    assert width > 0
    if len(title) > width - 4:
        width = len(title) + 4
    first = (width - len(title)) // 2
    line = f"{sep * first} {title} {sep * (width - first - len(title) - 2)}"
>> *)
Definition choice_separator (title : pystr) (width : Z) (sep : pystr) : Asserted pystr :=
  match sep with
  | [] => AssertionError
  | _ :: _ =>
      if width >? 0 then
        let len := Z.of_nat (length title) in
        let width := if len >? width - 4 then len + 4 else width in
        let first := (width - len) / 2 in
        AOk (str_mul sep first ++ [32] ++ title ++ [32] ++ str_mul sep (width - first - len - 2))
      else AssertionError
  end.

(** What [yaml.safe_load] does with the text of [config.yaml]: return
    a mapping (of option names to booleans, the form [save_config]
    writes; mappings with other values are outside this model), [None]
    (an empty document) or any other YAML value (a scalar or a
    sequence), or raise [yaml.YAMLError] on a malformed text. *)
Inductive YamlDoc :=
| YMapping (m : Config)
| YNull
| YOther
| YError.

Section Load.

Variable safe_load : pystr -> YamlDoc.

(** [load_config()]: [DEFAULT_CONFIG] when [config.yaml] does not
    exist, else [{**DEFAULT_CONFIG, **safe_load(text)}], the values of
    the file taking precedence.  [None] stands for the exception raised: the
    [TypeError] of [**] on a value that is not a mapping, or the
    [YAMLError] of [safe_load]. *)
Definition load_config (fs : FS) : option Config :=
  match config_yaml fs with
  | None => Some DEFAULT_CONFIG
  | Some text =>
      match safe_load text with
      | YMapping m => Some (m ∪ DEFAULT_CONFIG)
      | _ => None
      end
  end.

End Load.

End Utils.

(** ** [gitmopy/prompt.py] *)
Module Prompt.

Local Open Scope Z_scope.
Import Utils.

(** What the user types at each prompt of [commit_prompt]: the value of
    the selected emoji choice, the scope, the successive attempts at the
    title prompt (InquirerPy asks again while [validate] rejects the
    text) and the message. *)
Record PromptInput := {
  in_emoji : pystr;
  in_scope : pystr;
  in_titles : list pystr;
  in_message : pystr
}.

(** Result of running the prompt: the dictionary, a [KeyError] on the
    configuration, or a title prompt still waiting for a valid text. *)
Inductive Outcome (A : Type) :=
| Returned (a : A)
| KeyError (k : pystr)
| Waiting.
Arguments Returned {A} a.
Arguments KeyError {A} k.
Arguments Waiting {A}.

Fixpoint first_valid (valid : pystr -> bool) (attempts : list pystr) : option pystr :=
  match attempts with
  | [] => None
  | t :: r => if valid t then Some t else first_valid valid r
  end.

(** [validate=lambda t: len(t) > 0] ([mandatory=True] also refuses an
    empty answer). *)
Definition title_validate (t : pystr) : bool := Nat.ltb 0 (length t).

Definition get_cfg (config : Config) (k : string) : Outcome bool :=
  match config !! s2l k with
  | Some b => Returned b
  | None => KeyError (s2l k)
  end.

Definition bind_out {A B} (m : Outcome A) (f : A -> Outcome B) : Outcome B :=
  match m with
  | Returned a => f a
  | KeyError k => KeyError k
  | Waiting => Waiting
  end.

Notation "x <- m ;; f" := (bind_out m (fun x => f))
  (at level 100, m at next level, right associativity).

(** [commit_prompt(config)]. *)
Definition commit_prompt (config : Config) (inp : PromptInput) : Outcome CommitDict :=
  let emoji := py_strip (in_emoji inp) in
  skip_scope <- get_cfg config "skip_scope" ;;
  let scope := if skip_scope then [] else py_strip (in_scope inp) in
  t <- match first_valid title_validate (in_titles inp) with
       | Some t => Returned t
       | None => Waiting
       end ;;
  let title := py_strip t in
  cap <- get_cfg config "capitalize_title" ;;
  let title := if cap then py_capitalize title else title in
  skip_message <- get_cfg config "skip_message" ;;
  let message := if skip_message then [] else py_strip (in_message inp) in
  Returned {| emoji := emoji; scope := scope; title := title; message := message |}.

(** A history entry ([HISTORY] holds the saved commit dictionaries with
    their [timestamp]). *)
Record HistoryEntry := {
  h_emoji : pystr;
  h_scope : pystr;
  h_title : pystr;
  h_message : pystr;
  h_timestamp : Z
}.

(** The [key] a completer is built for. *)
Inductive Key := KEmoji | KScope | KTitle | KMessage.

Definition field (key : Key) (c : HistoryEntry) : pystr :=
  match key with
  | KEmoji => h_emoji c
  | KScope => h_scope c
  | KTitle => h_title c
  | KMessage => h_message c
  end.

(** One iteration of the loop of [GMPCompleter.__init__]. *)
Definition cand_step (key : Key) (cands : list (pystr * Z)) (c : HistoryEntry)
  : list (pystr * Z) :=
  match dict_get cands (field key c) with
  | None => dict_set cands (field key c) (h_timestamp c)
  | Some t => dict_set cands (field key c) (Z.max t (h_timestamp c))
  end.

(** [GMPCompleter(key).candidates] over the history [HISTORY]. *)
Definition candidates (key : Key) (history : list HistoryEntry) : list (pystr * Z) :=
  fold_left (cand_step key) history [].

(** [t] is the most recent timestamp at which the value [v] of the
    field [key] was used in [history]. *)
Definition most_recent (key : Key) (history : list HistoryEntry) (v : pystr) (t : Z) : Prop :=
  (exists e, In e history /\ field key e = v /\ h_timestamp e = t) /\
  (forall e, In e history -> field key e = v -> h_timestamp e <= t).

(** Invariant of the loop of [GMPCompleter.__init__] after the entries
    [P]: distinct keys, each mapped to its most recent timestamp in [P],
    and every value of [P] present. *)
Definition cand_inv (key : Key) (P : list HistoryEntry) (acc : list (pystr * Z)) : Prop :=
  List.NoDup (map fst acc) /\
  (forall v t, In (v, t) acc -> most_recent key P v t) /\
  (forall e, In e P -> In (field key e) (map fst acc)).

(** [sorted(..., key=lambda x: x[1], reverse=True)]: stable, descending. *)
Definition sort_desc (l : list (pystr * Z)) : list (pystr * Z) :=
  sort_by (fun y x => snd x <=? snd y) l.

(** [get_completions]: the texts of the yielded [Completion]s. *)
Definition get_completions (key : Key) (history : list HistoryEntry) (text : pystr)
  : list pystr :=
  let matched :=
    sort_desc (List.filter (fun kv => startswith (py_lower (fst kv)) (py_lower text))
                 (candidates key history)) in
  map fst (firstn 10 matched).

(** [DEFAULT_CHOICES]: the [value] and the [default] of each entry. *)
Definition DEFAULT_CHOICES : list (pystr * bool) :=
  [(s2l "skip_scope", false); (s2l "skip_message", false);
   (s2l "capitalize_title", true); (s2l "enable_history", true)].

Section Setup.

Variable safe_load : pystr -> YamlDoc.

(** [setup_prompt()] when the user leaves ticked the choices whose
    values are in [selected]: the value and pre-ticked state of each
    [Choice] shown, and what [save_config] does with the updated
    configuration (whose [None] is the [FileNotFoundError] of
    [save_config]); [None] for the exception of [load_config]. *)
Definition setup_prompt (fs : FS) (selected : list pystr)
  : option (list (pystr * bool) * option (FS * list pystr)) :=
  match load_config safe_load fs with
  | None => None
  | Some config =>
      let choices :=
        map (fun c => (fst c, match config !! fst c with Some b => b | None => snd c end))
          DEFAULT_CHOICES in
      let config :=
        fold_left (fun cfg c => <[fst c := existsb (str_eqb (fst c)) selected]> cfg)
          choices config in
      Some (choices, save_config config fs)
  end.

End Setup.

(** [get_files_status] (git.py): the file paths by status. *)
Record FilesStatus := {
  staged : list pystr;
  unstaged : list pystr;
  untracked : list pystr
}.

(** An entry of an [inquirer.checkbox]: [Choice(value, name, enabled)]
    or a [Separator()]. *)
Inductive CheckboxItem :=
| Choice (value name : pystr) (enabled : bool)
| Separator.

(** The [choices] that [git_add_prompt] builds before calling
    [inquirer.checkbox]. *)
Definition git_add_choices (status : FilesStatus) : list CheckboxItem :=
  let choices :=
    fold_left (fun ch s => ch ++ [Choice s (s ++ s2l " -- unstaged") true])
      (unstaged status) [] in
  let choices := if Nat.ltb 0 (length choices) then choices ++ [Separator] else choices in
  fold_left (fun ch s => ch ++ [Choice s (s ++ s2l " -- untracked") true])
    (untracked status) choices.

End Prompt.

(** ** [gitmopy/history.py] *)
Module History.

Local Open Scope Z_scope.
Import Utils Prompt.

(** [save_to_history(commit_dict)] at the time [now] given by
    [timestamp()]: [HISTORY] after the append of
    [{**commit_dict, "timestamp": now}] (the list [json.dumps] then
    writes to [history.json]). *)
Definition history_entry (d : CommitDict) (now : Z) : HistoryEntry :=
  {| h_emoji := emoji d; h_scope := scope d; h_title := title d;
     h_message := message d; h_timestamp := now |}.

Definition save_to_history (history : list HistoryEntry) (d : CommitDict) (now : Z)
  : list HistoryEntry :=
  history ++ [history_entry d now].

(** An entry of [EMOJIS]; only its ["emoji"] key is read by the sort. *)
Record Emoji := {
  e_emoji : pystr;
  e_description : pystr
}.

(** The dictionary [dater] of [sort_emojis_by_timestamp]: each commit
    overwrites the timestamp of its emoji. *)
Definition dater (history : list HistoryEntry) : list (pystr * Z) :=
  fold_left (fun d c => dict_set d (h_emoji c) (h_timestamp c)) history [].

(** [dater.get(x["emoji"], 0)]. *)
Definition emoji_key (d : list (pystr * Z)) (x : Emoji) : Z :=
  match dict_get d (e_emoji x) with Some t => t | None => 0 end.

(** [sort_emojis_by_timestamp()]: [EMOJIS] after
    [EMOJIS.sort(key=..., reverse=True)] (a stable sort: [reverse=True]
    keeps equal elements in their original order). *)
Definition sort_emojis_by_timestamp (history : list HistoryEntry) (emojis : list Emoji)
  : list Emoji :=
  let d := dater history in
  sort_by (fun y x => emoji_key d x <=? emoji_key d y) emojis.

End History.

(** ** [gitmopy/git.py] *)
Module Git.

Local Open Scope Z_scope.
Import Utils.

(** Rich markup of [col(txt, color, bold)] with the [COLORS] table. *)
Definition COLORS (c : string) : string :=
  match c with
  | "r" => "red" | "g" => "green3" | "b" => "dodger_blue3"
  | "y" => "yellow3" | "o" => "orange3" | "p" => "plum3"
  | _ => ""
  end%string.

Definition col (txt : pystr) (color : string) (bold : bool) : pystr :=
  if bold then s2l "[" ++ s2l (COLORS color) ++ s2l " bold]" ++ txt ++ s2l "[/]"
  else s2l "[" ++ s2l (COLORS color) ++ s2l "]" ++ txt ++ s2l "[/]".

(** An exception reaching [CatchRemoteException.__exit__]: exactly
    [GitCommandError] (with its [stderr]) or an exception of any other
    type (its type name and [str(e)]). *)
Inductive Exc :=
| GitCommandError (stderr : pystr)
| OtherExc (type_name : pystr) (text : pystr).

(** The attributes of a [CatchRemoteException] object. *)
Record CRE := {
  cre_remote : pystr;
  cre_error : bool;
  set_upsteam : bool
}.

(** [CatchRemoteException.__init__]. *)
Definition cre_init (remote : pystr) : CRE :=
  {| cre_remote := remote; cre_error := false; set_upsteam := false |}.

(** [CatchRemoteException.__exit__]: the updated object, the printed
    lines and the returned value (true suppresses the exception). *)
Definition cre_exit (self : CRE) (exc : option Exc) : CRE * list pystr * bool :=
  match exc with
  | Some (GitCommandError stderr) =>
      ({| cre_remote := cre_remote self; cre_error := true;
          set_upsteam := set_upsteam self |},
       [s2l "[bold red]Error:[/bold red] could not push to " ++ cre_remote self ++ s2l ":";
        s2l "[red]" ++ stderr ++ s2l "[/red]"],
       true)
  | _ => (self, [], true)
  end.

(** [with CatchRemoteException(remote) as cre: <body>] where [body]
    raises [exc] (or nothing): the object after the block and the
    printed lines. *)
Definition with_cre (remote : pystr) (exc : option Exc) : CRE * list pystr :=
  let '(cre, out, _) := cre_exit (cre_init remote) exc in (cre, out).

(** A reference of [repo.refs]. *)
Record Ref := {
  ref_is_remote : bool;
  ref_remote_name : pystr;
  ref_name : pystr
}.

Record Repo := {
  repo_remotes : list pystr;
  repo_refs : list Ref
}.

(** [str.removeprefix]. *)
Definition removeprefix (s p : pystr) : pystr :=
  if startswith s p then skipn (length p) s else s.

Section Fetch.

(** The effect of [git fetch] on every remote ([fetch_all]): a new
    repository state, decided by the remotes. *)
Variable fetch_all : Repo -> Repo.

(** [has_upstreams(repo, remotes, branch_name)] once [fetch_all(repo)]
    has returned; when a fetch raises, the exception propagates out of
    [has_upstreams] instead (see [fetch_all_raises]). *)
Definition has_upstreams (repo : Repo) (remotes : list pystr) (branch_name : pystr)
  : list (pystr * bool) :=
  let repo := fetch_all repo in
  let remote_has_upstream :=
    fold_left (fun d r => dict_set d r false) remotes [] in
  let remote_refs :=
    fold_left (fun d ref => dict_set d (ref_remote_name ref) true)
      (List.filter (fun ref => ref_is_remote ref &&
                 str_eqb (removeprefix (ref_name ref) (ref_remote_name ref ++ s2l "/"))
                         branch_name)
         (repo_refs repo)) [] in
  fold_left (fun d kv => dict_set d (fst kv) (snd kv)) remote_refs remote_has_upstream.

End Fetch.

(** The exception [fetch_all(repo)] raises, if any: [r.fetch()] runs for
    each remote of [repo.remotes] in turn, and the first exception (the
    [GitCommandError] of a failed [git fetch]) propagates, the remaining
    remotes left unfetched.  [fetch_raises r] is what [r.fetch()]
    raises. *)
Fixpoint fetch_all_raises (fetch_raises : pystr -> option Exc) (remotes : list pystr)
  : option Exc :=
  match remotes with
  | [] => None
  | r :: rs =>
      match fetch_raises r with
      | Some e => Some e
      | None => fetch_all_raises fetch_raises rs
      end
  end.

(** A remote-tracking ref [remote/branch] exists in the repository. *)
Definition tracking_ref (repo : Repo) (remote branch : pystr) : Prop :=
  exists ref, In ref (repo_refs repo) /\ ref_is_remote ref = true /\
    ref_remote_name ref = remote /\ ref_name ref = remote ++ s2l "/" ++ branch.

(** GitPython names a remote ref [<remote>/<path>]: its [name] starts
    with its [remote_name] and a slash. *)
Definition refs_well_formed (repo : Repo) : Prop :=
  forall ref, In ref (repo_refs repo) -> ref_is_remote ref = true ->
    startswith (ref_name ref) (ref_remote_name ref ++ s2l "/") = true.

(** [str(n)] for a non-negative integer. *)
Fixpoint digits_aux (fuel n : nat) (acc : pystr) : pystr :=
  match fuel with
  | O => acc
  | S f =>
      let acc' := (48 + Z.of_nat (n mod 10)) :: acc in
      if Nat.ltb n 10 then acc' else digits_aux f (n / 10) acc'
  end.

Definition str_nat (n : nat) : pystr := digits_aux (S n) n [].

(** What [len(list(repo.iter_commits(rev_range)))] gives: a count, or
    a [GitCommandError] whose [str] is [msg]. *)
Inductive RevCount :=
| Count (n : nat)
| RevError (msg : pystr).

(** Per remote, the two rev-list queries of [commits_behind]
    ([b..r/b]) and [commits_ahead] ([r/b..b]). *)
Record RemoteRevs := {
  rr_name : pystr;
  rr_behind : RevCount;
  rr_ahead : RevCount
}.

Fixpoint contains (s sub : pystr) : bool :=
  startswith s sub || match s with [] => false | _ :: r => contains r sub end.

(** The state of the current branch [b] on a remote, as git sees it:
    the tracking ref [r/b] exists and the two ranges count [behind] and
    [ahead] commits, or the ref is missing. *)
Inductive RemoteState :=
| Tracking (behind ahead : nat)
| Missing.

(** The rev-list results git gives in each state: counts, or for a
    missing ref the [GitCommandError] of [git rev-list], whose text holds
    ["fatal: bad revision"]. *)
Definition bad_revision (range : pystr) : pystr :=
  s2l "Cmd('git') failed due to: exit code(128)" ++ [10] ++
  s2l "  cmdline: git rev-list " ++ range ++ [10] ++
  s2l "  stderr: 'fatal: bad revision '" ++ range ++ s2l "''".

Definition revs_of (b : pystr) (rs : pystr * RemoteState) : RemoteRevs :=
  let '(r, st) := rs in
  match st with
  | Tracking bh ah => {| rr_name := r; rr_behind := Count bh; rr_ahead := Count ah |}
  | Missing =>
      {| rr_name := r;
         rr_behind := RevError (bad_revision (b ++ s2l ".." ++ r ++ s2l "/" ++ b));
         rr_ahead := RevError (bad_revision (r ++ s2l "/" ++ b ++ s2l ".." ++ b)) |}
  end.

(** A value of [behinds]: an [int] or the [_sentinels["no-branch"]]
    object. *)
Inductive Behind :=
| BInt (n : nat)
| NoBranch.

(** [commits_behind(repo)]. *)
Definition commits_behind (remotes : list RemoteRevs) : list (pystr * Behind) :=
  fold_left (fun behinds r =>
    match rr_behind r with
    | Count n => dict_set behinds (rr_name r) (BInt n)
    | RevError msg =>
        if contains msg (s2l "fatal: bad revision")
        then dict_set behinds (rr_name r) NoBranch
        else behinds
    end) remotes [].

(** [commits_ahead(repo)]. *)
Definition commits_ahead (remotes : list RemoteRevs) : list (pystr * nat) :=
  fold_left (fun aheads r =>
    match rr_ahead r with
    | Count n => dict_set aheads (rr_name r) n
    | RevError _ => aheads
    end) remotes [].

(** The test of [format_remotes_diff]: the sum of the [int] values of
    [behind] plus the sum of [ahead]. *)
Definition diff_total (behind : list (pystr * Behind)) (ahead : list (pystr * nat)) : nat :=
  list_sum (map (fun kv => match snd kv with BInt n => n | NoBranch => 0%nat end) behind)
  + list_sum (map snd ahead).

Definition no_branch (behind : list (pystr * Behind)) : list pystr :=
  map fst (List.filter (fun kv => match snd kv with NoBranch => true | _ => false end) behind).

(** Truthiness of a [behinds] value ([object()] is true). *)
Definition behind_truthy (v : Behind) : bool :=
  match v with BInt n => negb (Nat.eqb n 0) | NoBranch => true end.

(** The body of the loop [for r in repo.remotes] for one remote, [None]
    when a dictionary lookup raises [KeyError]. *)
Definition diff_piece (behind : list (pystr * Behind)) (ahead : list (pystr * nat))
  (b : pystr) (r : pystr) : option pystr :=
  match dict_get behind r with
  | None => None
  | Some bv =>
      match bv with
      | NoBranch => Some (col (s2l "remote " ++ r ++ s2l " does not have a branch "
                                 ++ b ++ [10]) "y" false)
      | BInt n =>
          let s1 := if behind_truthy bv
                    then col (s2l "  " ++ [8629] ++ s2l " local is behind " ++ r ++ s2l " by "
                              ++ str_nat n ++ s2l " commit(s)" ++ [10]) "o" false
                    else [] in
          match dict_get ahead r with
          | None => None
          | Some a =>
              Some (s1 ++ if Nat.eqb a 0 then []
                          else col (s2l "  " ++ [8627] ++ s2l " local is ahead of " ++ r
                                    ++ s2l " by " ++ str_nat a ++ s2l " commit(s)" ++ [10])
                                   "p" false)
          end
      end
  end.

Fixpoint diff_lines (behind : list (pystr * Behind)) (ahead : list (pystr * nat))
  (b : pystr) (rs : list pystr) : option pystr :=
  match rs with
  | [] => Some []
  | r :: rs' =>
      match diff_piece behind ahead b r with
      | None => None
      | Some p =>
          match diff_lines behind ahead b rs' with
          | None => None
          | Some q => Some (p ++ q)
          end
      end
  end.

(** [format_remotes_diff(repo)] for the active branch [b]; [None] when
    it raises [KeyError]. *)
Definition format_remotes_diff (b : pystr) (remotes : list RemoteRevs) : option pystr :=
  let behind := commits_behind remotes in
  let ahead := commits_ahead remotes in
  if Nat.eqb (diff_total behind ahead) 0 && (match no_branch behind with [] => true | _ => false end)
  then Some []
  else
    match diff_lines behind ahead b (map rr_name remotes) with
    | None => None
    | Some q => Some (s2l "[u]" ++ col (s2l "Remotes diff:") "g" false ++ s2l "[/u]" ++ [10] ++ q)
    end.

End Git.

(** ** [gitmopy/cli.py]: [push_cli] *)
Module Cli.

Local Open Scope Z_scope.
Import Git.

(** The answers [push_cli] receives from the outside: the remotes chosen
    in [choose_remote_prompt], the answer of [set_upstream_prompt] for
    each remote, and what [repo.git.push(...)] raises for a remote with
    or without [--set-upstream]. *)
Record PushEnv := {
  chosen_remotes : list pystr;
  set_upstream_answer : pystr -> bool;
  push_raises : pystr -> bool -> option Exc
}.

(** Outcome of [push_cli]: the printed lines, and whether [typer.Abort]
    was raised. *)
Inductive CliResult :=
| Finished (printed : list pystr)
| Aborted (printed : list pystr).

Definition mem (x : pystr) (l : list pystr) : bool := existsb (str_eqb x) l.

(** [remote_upstreams[remote.name]]: every selected remote is a key of
    the dictionary [has_upstreams] returns, so the lookup does not fail
    in [push_cli]. *)
Definition upstream_of (remote_upstreams : list (pystr * bool)) (remote : pystr) : bool :=
  match dict_get remote_upstreams remote with Some v => v | None => false end.

(** One iteration of [for remote in repo.remotes] once [remote] is
    known to be selected. *)
Definition push_one (env : PushEnv) (remote_upstreams : list (pystr * bool))
  (branch : pystr) (remote : pystr) : list pystr :=
  let done_ := col (s2l "Pushed to remote " ++ remote) "b" true in
  let has_up := upstream_of remote_upstreams remote in
  if negb has_up && negb (set_upstream_answer env remote)
  then [col (s2l "Skipping remote " ++ remote ++ s2l ".") "y" false]
  else
    let set_upstream := negb has_up in
    let '(cre, out) := with_cre remote (push_raises env remote set_upstream) in
    let done_ := if set_upstream && negb (cre_error cre)
                 then done_ ++ col (s2l " (upstream branch created)") "b" true
                 else done_ in
    out ++ (if negb (cre_error cre) then [done_] else []).

(** The selection of [push_cli] when [repo.remotes] is not empty: the
    first remote when it is the only one, else the [--remote] values or
    the answer of [choose_remote_prompt]; [None] for an empty selection
    (which raises [typer.Abort]). *)
Definition select_remotes (env : PushEnv) (remotes : list pystr)
  (remote_cli_args : list pystr) : option (list pystr) :=
  match remotes with
  | [] => None
  | [r0] => Some [r0]
  | _ =>
      let sel := match remote_cli_args with
                 | [] => chosen_remotes env
                 | _ :: _ => remote_cli_args
                 end in
      match sel with [] => None | _ :: _ => Some sel end
  end.

Section Push.

Variable fetch_all : Repo -> Repo.

(** [push_cli(repo, remote_cli_args)] on the active branch [branch], on
    a run where [fetch_all(repo)] (called by [has_upstreams]) returns;
    [push_cli_call] below adds the exception a failed fetch raises. *)
Definition push_cli (env : PushEnv) (repo : Repo) (branch : pystr)
  (remote_cli_args : list pystr) : CliResult :=
  match repo_remotes repo with
  | [] => Finished [col (s2l "No remote found. Ignoring push.") "y" false]
  | _ :: _ =>
      match select_remotes env (repo_remotes repo) remote_cli_args with
      | None => Aborted [col (s2l "No remote selected. Aborting.") "y" false]
      | Some selected_remotes =>
          let remote_upstreams := has_upstreams fetch_all repo selected_remotes branch in
          Finished (flat_map (push_one env remote_upstreams branch)
                      (List.filter (fun r => mem r selected_remotes) (repo_remotes repo)))
      end
  end.

Variable fetch_raises : pystr -> option Exc.

(** How a call of [push_cli] ends: it returns, or an exception
    propagates out of it. *)
Inductive PushRun :=
| PushReturned (r : CliResult)
| PushRaised (e : Exc).

(** The whole of [push_cli(repo, remote_cli_args)]: with no remote or
    no selection it returns as above; otherwise [has_upstreams] first
    runs [fetch_all(repo)], whose exception propagates before any push,
    and only when every fetch succeeds does the loop over the remotes
    run. *)
Definition push_cli_call (env : PushEnv) (repo : Repo) (branch : pystr)
  (remote_cli_args : list pystr) : PushRun :=
  match repo_remotes repo with
  | [] => PushReturned (push_cli env repo branch remote_cli_args)
  | _ :: _ =>
      match select_remotes env (repo_remotes repo) remote_cli_args with
      | None => PushReturned (push_cli env repo branch remote_cli_args)
      | Some _ =>
          match fetch_all_raises fetch_raises (repo_remotes repo) with
          | Some e => PushRaised e
          | None => PushReturned (push_cli env repo branch remote_cli_args)
          end
      end
  end.

End Push.

(** What [pull_cli] receives from the outside: the remotes chosen in
    [choose_remote_prompt] and what [repo.git.pull(remote, branch)]
    raises for each remote. *)
Record PullEnv := {
  pull_chosen : list pystr;
  pull_raises : pystr -> option Exc
}.

(** One iteration of [for remote in repo.remotes] of [pull_cli] once
    [remote] is known to be selected. *)
Definition pull_one (env : PullEnv) (remote : pystr) : list pystr :=
  let done_ := col (s2l "Pulled from remote " ++ remote) "b" true in
  let '(cre, out) := with_cre remote (pull_raises env remote) in
  out ++ (if negb (cre_error cre) then [done_] else []).

(** [pull_cli(repo, remote_cli_args)] on the active branch [branch]:
    the outcome with the printed lines ([print()] prints an empty line)
    and the calls [repo.git.pull(remote, branch)] made, in order. *)
Definition pull_cli (env : PullEnv) (repo : Repo) (branch : pystr)
  (remote_cli_args : list pystr) : CliResult * list (pystr * pystr) :=
  match repo_remotes repo with
  | [] => (Finished [col (s2l "No remote found. Ignoring pull.") "y" false], [])
  | r0 :: rest =>
      let sel := match rest with
                 | [] => Some [r0]
                 | _ :: _ =>
                     let s := match remote_cli_args with
                              | [] => pull_chosen env
                              | _ :: _ => remote_cli_args
                              end in
                     match s with [] => None | _ :: _ => Some s end
                 end in
      match sel with
      | None => (Aborted [col (s2l "No remote selected. Aborting.") "y" false], [])
      | Some selected_remotes =>
          let todo := List.filter (fun r => mem r selected_remotes) (repo_remotes repo) in
          (Finished ([] :: flat_map (pull_one env) todo), map (fun r => (r, branch)) todo)
      end
  end.

(** What the function wrapped by [catch_keyboard_interrupt] does:
    return a value or raise.  [KeyboardInterrupt] and the other
    exceptions that are not instances of [Exception] ([SystemExit],
    [GeneratorExit]) are kept apart from the [Exception]s, given by
    their [str]. *)
Inductive Raised :=
| RKeyboardInterrupt
| RBaseException (type_name : pystr)
| RException (text : pystr).

Inductive CallResult (A : Type) :=
| Returns (a : A)
| Raises (r : Raised).
Arguments Returns {A} a.
Arguments Raises {A} r.

(** What [catch_keyboard_interrupt] gives back: the value of the
    function, the [_sentinels["stop"]] or [_sentinels["restart"]]
    object, or the [click.exceptions.Abort] that [typer.prompt] raises on
    a second ctrl+c. *)
Inductive Caught (A : Type) :=
| CValue (a : A)
| CStop
| CRestart
| CAbort.
Arguments CValue {A} a.
Arguments CStop {A}.
Arguments CRestart {A}.
Arguments CAbort {A}.

Definition restart_notice : pystr :=
  [10] ++ s2l "[yellow]Press [b green]enter[/b green] to restart commit process"
  ++ s2l " or [b red]ctrl+c[/b red] again to quit (or [b red]q[/b red]).".

(** [catch_keyboard_interrupt(func, ...)] when [func] does [call] and
    [typer.prompt] returns [answer] ([None]: the user presses ctrl+c
    again); the result and the printed lines.  In [_func], only an
    [Exception] enters the [except] clause (and is printed); the
    [return] in [finally] discards any exception still in flight. *)
Definition catch_keyboard_interrupt {A} (call : CallResult A) (answer : option pystr)
  : Caught A * list pystr :=
  match call with
  | Returns a => (CValue a, [])
  | Raises r =>
      let printed := match r with
                     | RException text => [text]
                     | _ => []
                     end ++ [restart_notice] in
      match answer with
      | None => (CAbort, printed)
      | Some s => if str_eqb s (s2l "q") then (CStop, printed) else (CRestart, printed ++ [[]])
      end
  end.

(** The [choices] dictionary [should_commit_again] passes to
    [what_now_prompt] for the text [remotes_diff] of
    [format_remotes_diff(repo)]. *)
Definition what_now_choices (remotes_diff : pystr) : list (pystr * pystr) :=
  let choices := [(s2l "c", s2l "Commit again")] in
  let choices :=
    match remotes_diff with
    | [] => choices
    | _ :: _ =>
        let choices := dict_set choices (s2l "p") (s2l "Push and commit again") in
        if negb (contains remotes_diff (s2l "does not have a branch"))
        then dict_set choices (s2l "s") (s2l "Sync (pull then push) and commit again")
        else choices
    end in
  dict_set choices (s2l "q") (s2l "Quit gitmopy").

End Cli.

(** * Properties *)

Import Utils Prompt History Git Cli.
Local Open Scope Z_scope.

(** ** Commit message format *)

(** C1: with a non-empty scope the message is
    ["{emoji} ({scope}): {title}\n\n{message}"] stripped; with an empty
    scope it is ["{emoji} {title}\n\n{message}"] stripped, the
    ["({scope}): "] segment being absent. *)
Theorem message_from_commit_dict_format (e s t m : pystr) :
  (s <> [] ->
   message_from_commit_dict {| emoji := e; scope := s; title := t; message := m |}
   = py_strip (e ++ s2l " (" ++ s ++ s2l "): " ++ t ++ [10; 10] ++ m)) /\
  message_from_commit_dict {| emoji := e; scope := []; title := t; message := m |}
  = py_strip (e ++ s2l " " ++ t ++ [10; 10] ++ m).
Proof.
  split.
  - intros Hs. destruct s as [|c s']; [congruence|].
    unfold message_from_commit_dict; cbn [emoji scope title message].
    f_equal. rewrite <- !app_assoc. reflexivity.
  - unfold message_from_commit_dict; cbn [emoji scope title message].
    f_equal. rewrite <- !app_assoc. reflexivity.
Qed.

Lemma message_from_commit_dict_format_witness :
  s2l "ui" <> [] /\
  message_from_commit_dict {| emoji := [10024]; scope := s2l "ui"; title := s2l "Add";
                              message := s2l "Body" |}
  = py_strip ([10024] ++ s2l " (" ++ s2l "ui" ++ s2l "): " ++ s2l "Add" ++ [10; 10] ++ s2l "Body").
Proof.
  split; [discriminate|].
  apply (proj1 (message_from_commit_dict_format [10024] (s2l "ui") (s2l "Add") (s2l "Body"))).
  discriminate.
Defined.

(** The preview of the dry-run scenario of the spec: ["✨ Add feature"]. *)
Example message_dry_run_preview :
  message_from_commit_dict {| emoji := [10024]; scope := []; title := s2l "Add feature";
                              message := [] |} = [10024] ++ s2l " Add feature".
Proof. vm_compute. reflexivity. Qed.

(** ** The title returned by [commit_prompt] *)

(** C2: a title typed as a single space passes [validate] (its length is
    1), is then stripped, and the returned dictionary has an empty
    title. *)
Theorem commit_prompt_blank_title :
  title_validate (s2l " ") = true /\
  commit_prompt DEFAULT_CONFIG
    {| in_emoji := [10024]; in_scope := []; in_titles := [s2l " "]; in_message := [] |}
  = Returned {| emoji := [10024]; scope := []; title := []; message := [] |}.
Proof. split; vm_compute; reflexivity. Qed.

(** C3: with [capitalize_title] set, [commit_prompt] applies
    [str.capitalize], which lower-cases the rest of the title:
    ["HELLO"] becomes ["Hello"], while [safe_capitalize] keeps
    ["HELLO"]. *)
Theorem commit_prompt_capitalize_lowers_rest :
  DEFAULT_CONFIG !! s2l "capitalize_title" = Some true /\
  commit_prompt DEFAULT_CONFIG
    {| in_emoji := [10024]; in_scope := []; in_titles := [s2l "HELLO"]; in_message := [] |}
  = Returned {| emoji := [10024]; scope := []; title := s2l "Hello"; message := [] |} /\
  safe_capitalize (s2l "HELLO") = s2l "HELLO".
Proof. split; [|split]; vm_compute; reflexivity. Qed.

Example safe_capitalize_examples :
  safe_capitalize [] = [] /\ safe_capitalize (s2l "a") = s2l "A" /\
  safe_capitalize (s2l "hello") = s2l "Hello".
Proof. vm_compute. repeat split. Qed.

(** ** [CatchRemoteException] *)

(** C6: [set_upsteam] is never set by [__exit__]: it is still [False]
    after any exception, including a [GitCommandError] whose text says
    the branch has no upstream. *)
Theorem cre_exit_never_sets_upstream (remote : pystr) (exc : option Exc) :
  set_upsteam (fst (fst (cre_exit (cre_init remote) exc))) = false.
Proof. destruct exc as [[]|]; reflexivity. Qed.

(** ** Python strings and dictionaries: basic facts *)

Lemma str_eqb_spec (a b : pystr) : str_eqb a b = true <-> a = b.
Proof. unfold str_eqb. apply bool_decide_eq_true. Qed.

Lemma str_eqb_refl (a : pystr) : str_eqb a a = true.
Proof. now apply str_eqb_spec. Qed.

Lemma str_eqb_false (a b : pystr) : str_eqb a b = false <-> a <> b.
Proof.
  split.
  - intros H E. apply str_eqb_spec in E. congruence.
  - intros H. destruct (str_eqb a b) eqn:E; [|reflexivity].
    apply str_eqb_spec in E. congruence.
Qed.

Lemma startswith_nil (s : pystr) : startswith s [] = true.
Proof. now destruct s. Qed.

Lemma startswith_app (p q : pystr) : startswith (p ++ q) p = true.
Proof.
  induction p as [|c p IH]; [apply startswith_nil|].
  simpl. now rewrite Z.eqb_refl, IH.
Qed.

Lemma startswith_inv (s p : pystr) : startswith s p = true -> s = p ++ skipn (length p) s.
Proof.
  revert s. induction p as [|c p IH]; intros s H; [reflexivity|].
  destruct s as [|d s]; simpl in H; [discriminate|].
  apply andb_true_iff in H as [E H]. apply Z.eqb_eq in E. subst d.
  simpl. f_equal. now apply IH.
Qed.

Lemma contains_cons (c : Z) (s sub : pystr) :
  contains (c :: s) sub = startswith (c :: s) sub || contains s sub.
Proof. reflexivity. Qed.

Lemma contains_nil_r (s : pystr) : contains s [] = true.
Proof. destruct s; reflexivity. Qed.

Lemma contains_app_r (p s sub : pystr) : contains s sub = true -> contains (p ++ s) sub = true.
Proof.
  induction p as [|c p IH]; intros H; [exact H|].
  rewrite <- app_comm_cons, contains_cons, IH; [apply orb_true_r|exact H].
Qed.

Lemma contains_app_l (s q sub : pystr) : contains s sub = true -> contains (s ++ q) sub = true.
Proof.
  induction s as [|c s IH]; intros H.
  - destruct sub; [apply contains_nil_r|discriminate].
  - rewrite contains_cons in H. rewrite <- app_comm_cons, contains_cons.
    apply orb_true_iff in H as [H|H].
    + apply startswith_inv in H. rewrite app_comm_cons, H, <- app_assoc, startswith_app.
      reflexivity.
    + rewrite IH; [apply orb_true_r|exact H].
Qed.

Lemma contains_infix (p x q : pystr) : contains (p ++ x ++ q) x = true.
Proof.
  apply contains_app_r. apply (contains_app_l x q x).
  destruct x as [|c x]; [reflexivity|].
  rewrite contains_cons. pose proof (startswith_app (c :: x) []) as H.
  rewrite app_nil_r in H. now rewrite H.
Qed.

Lemma dict_get_set {V} (d : list (pystr * V)) k v k' :
  dict_get (dict_set d k v) k' = if str_eqb k k' then Some v else dict_get d k'.
Proof.
  induction d as [|[k0 v0] d IH]; simpl; [now destruct (str_eqb k k')|].
  destruct (str_eqb k0 k) eqn:E0.
  - apply str_eqb_spec in E0. subst k0. simpl. now destruct (str_eqb k k').
  - simpl. rewrite IH. destruct (str_eqb k0 k') eqn:E1; [|reflexivity].
    apply str_eqb_spec in E1. subst k'.
    destruct (str_eqb k k0) eqn:E2; [|reflexivity].
    apply str_eqb_spec in E2. subst. now rewrite str_eqb_refl in E0.
Qed.

Lemma dict_keys_set {V} (d : list (pystr * V)) k v x :
  In x (map fst (dict_set d k v)) <-> x = k \/ In x (map fst d).
Proof.
  induction d as [|[k0 v0] d IH]; simpl; [intuition congruence|].
  destruct (str_eqb k0 k) eqn:E0.
  - apply str_eqb_spec in E0. subst k0. simpl. intuition congruence.
  - simpl. rewrite IH. tauto.
Qed.

Lemma dict_get_none {V} (d : list (pystr * V)) k :
  dict_get d k = None <-> ~ In k (map fst d).
Proof.
  induction d as [|[k0 v0] d IH]; simpl; [tauto|].
  destruct (str_eqb k0 k) eqn:E.
  - apply str_eqb_spec in E. subst. split; [discriminate|tauto].
  - apply str_eqb_false in E. rewrite IH. tauto.
Qed.

Section FoldSet.
Context {A V : Type} (f : A -> pystr) (v : V).

Lemma fold_set_const_get (l : list A) (d : list (pystr * V)) k :
  dict_get (fold_left (fun d a => dict_set d (f a) v) l d) k
  = if existsb (fun a => str_eqb (f a) k) l then Some v else dict_get d k.
Proof.
  revert d. induction l as [|a l IH]; intros d; simpl; [reflexivity|].
  rewrite IH, dict_get_set.
  destruct (existsb _ l); [now rewrite orb_true_r|rewrite orb_false_r].
  now destruct (str_eqb (f a) k).
Qed.

Lemma fold_set_const_keys (l : list A) (d : list (pystr * V)) k :
  In k (map fst (fold_left (fun d a => dict_set d (f a) v) l d))
  <-> In k (map f l) \/ In k (map fst d).
Proof.
  revert d. induction l as [|a l IH]; intros d; simpl; [tauto|].
  rewrite IH, dict_keys_set. intuition congruence.
Qed.

Lemma fold_set_const_values (l : list A) (d : list (pystr * V)) :
  Forall (fun kv => snd kv = v) d ->
  Forall (fun kv => snd kv = v) (fold_left (fun d a => dict_set d (f a) v) l d).
Proof.
  revert d. induction l as [|a l IH]; intros d Hd; simpl; [exact Hd|].
  apply IH. clear IH. induction Hd as [|kv d H0 Hd IH]; simpl.
  - constructor; [reflexivity|constructor].
  - destruct kv as [k0 v0]. destruct (str_eqb k0 (f a)); constructor; auto.
Qed.

End FoldSet.

Lemma fold_update_const {V} (l : list (pystr * V)) (v : V) d :
  Forall (fun kv => snd kv = v) l ->
  fold_left (fun d kv => dict_set d (fst kv) (snd kv)) l d
  = fold_left (fun d kv => dict_set d (fst kv) v) l d.
Proof.
  revert d. induction l as [|[k0 v0] l IH]; intros d H; simpl; [reflexivity|].
  inversion H as [|? ? H0 Hl]; simpl in H0; subst v0. now apply IH.
Qed.

Lemma existsb_key (l : list (pystr * bool)) k :
  existsb (fun kv => str_eqb (fst kv) k) l = true <-> In k (map fst l).
Proof.
  rewrite existsb_exists. split.
  - intros [[k0 v0] [Hin E]]. apply str_eqb_spec in E. simpl in E. subst k.
    apply in_map_iff. now exists (k0, v0).
  - intros Hin. apply in_map_iff in Hin as [kv [<- Hin]].
    exists kv. split; [exact Hin|apply str_eqb_refl].
Qed.

Lemma existsb_str (l : list pystr) k :
  existsb (fun a => str_eqb a k) l = true <-> In k l.
Proof.
  rewrite existsb_exists. split.
  - intros [a [Hin E]]. apply str_eqb_spec in E. now subst.
  - intros Hin. exists k. split; [exact Hin|apply str_eqb_refl].
Qed.

Lemma skipn_length_app (p q : pystr) : skipn (length p) (p ++ q) = q.
Proof. induction p; simpl; auto. Qed.

Lemma upstream_filter_in (repo : Repo) (branch k : pystr) :
  refs_well_formed repo ->
  In k (map ref_remote_name
          (List.filter (fun ref => ref_is_remote ref &&
              str_eqb (removeprefix (ref_name ref) (ref_remote_name ref ++ s2l "/")) branch)
             (repo_refs repo)))
  <-> tracking_ref repo k branch.
Proof.
  intros Hwf. rewrite in_map_iff. split.
  - intros [ref [<- Hin]]. apply filter_In in Hin as [Hin Hp].
    apply andb_true_iff in Hp as [Hr Hb]. apply str_eqb_spec in Hb.
    exists ref. repeat split; auto.
    pose proof (Hwf ref Hin Hr) as Hs. unfold removeprefix in Hb. rewrite Hs in Hb.
    apply startswith_inv in Hs. rewrite Hs, Hb, <- app_assoc. reflexivity.
  - intros [ref (Hin & Hr & Hn & Hname)]. exists ref. split; [exact Hn|].
    apply filter_In. split; [exact Hin|]. rewrite Hr. simpl.
    apply str_eqb_spec. unfold removeprefix. rewrite Hname, Hn, app_assoc.
    rewrite startswith_app. apply skipn_length_app.
Qed.

(** C7 (as amended): after fetching, the keys of [has_upstreams] are the
    requested names together with every remote that has a tracking ref
    [remote/branch]; a key maps to [True] exactly when that ref exists. *)
Theorem has_upstreams_keys_values (fetch_all : Repo -> Repo) (repo : Repo)
  (remotes : list pystr) (branch : pystr) (Hwf : refs_well_formed (fetch_all repo)) :
  forall k,
    (In k (map fst (has_upstreams fetch_all repo remotes branch))
     <-> In k remotes \/ tracking_ref (fetch_all repo) k branch) /\
    (tracking_ref (fetch_all repo) k branch ->
     dict_get (has_upstreams fetch_all repo remotes branch) k = Some true) /\
    (~ tracking_ref (fetch_all repo) k branch -> In k remotes ->
     dict_get (has_upstreams fetch_all repo remotes branch) k = Some false).
Proof.
  intros k. unfold has_upstreams. cbv zeta.
  pose proof (upstream_filter_in (fetch_all repo) branch k Hwf) as HF.
  remember (List.filter _ (repo_refs (fetch_all repo))) as F eqn:EF.
  remember (fold_left (fun d ref => dict_set d (ref_remote_name ref) true) F []) as rr eqn:Err.
  assert (Hrr : Forall (fun kv => snd kv = true) rr).
  { subst rr. apply (fold_set_const_values ref_remote_name true). constructor. }
  rewrite (fold_update_const rr true _ Hrr).
  assert (Hkrr : In k (map fst rr) <-> tracking_ref (fetch_all repo) k branch).
  { subst rr. rewrite (fold_set_const_keys ref_remote_name true F [] k), HF. simpl. tauto. }
  pose proof (fold_set_const_keys (fun r : pystr => r) false remotes [] k) as Hkb.
  rewrite map_id in Hkb. simpl in Hkb.
  pose proof (fold_set_const_get (fun r : pystr => r) false remotes [] k) as Hgb.
  simpl in Hgb.
  split; [|split].
  - rewrite (fold_set_const_keys fst true rr _ k). rewrite Hkrr, Hkb. tauto.
  - intros HT. rewrite (fold_set_const_get fst true rr _ k).
    apply Hkrr, existsb_key in HT. now rewrite HT.
  - intros HT Hin. rewrite (fold_set_const_get fst true rr _ k).
    destruct (existsb _ rr) eqn:E.
    + apply existsb_key, Hkrr in E. contradiction.
    + rewrite Hgb. apply existsb_str in Hin. now rewrite Hin.
Qed.

(** C7: asking for [fork] alone in a repository where only [origin] has
    [origin/main] yields the keys [fork] and [origin]: the key set is not
    the requested names. *)
Lemma has_upstreams_extra_key :
  let repo := {| repo_remotes := [s2l "origin"; s2l "fork"];
                 repo_refs := [{| ref_is_remote := true; ref_remote_name := s2l "origin";
                                  ref_name := s2l "origin/main" |}] |} in
  map fst (has_upstreams (fun r => r) repo [s2l "fork"] (s2l "main"))
  = [s2l "fork"; s2l "origin"] /\ ~ In (s2l "origin") [s2l "fork"].
Proof. split; [vm_compute; reflexivity|]. intros [H|[]]. discriminate. Qed.

Lemma has_upstreams_keys_values_witness :
  let repo := {| repo_remotes := [s2l "origin"; s2l "fork"];
                 repo_refs := [{| ref_is_remote := true; ref_remote_name := s2l "origin";
                                  ref_name := s2l "origin/main" |}] |} in
  refs_well_formed repo /\
  dict_get (has_upstreams (fun r => r) repo [s2l "fork"] (s2l "main")) (s2l "origin")
  = Some true.
Proof.
  intros repo.
  assert (Hwf : refs_well_formed repo).
  { intros ref Hin _. destruct Hin as [<-|[]]. reflexivity. }
  split; [exact Hwf|].
  apply (proj1 (proj2 (has_upstreams_keys_values (fun r => r) repo [s2l "fork"] (s2l "main")
                         Hwf (s2l "origin")))).
  exists {| ref_is_remote := true; ref_remote_name := s2l "origin";
            ref_name := s2l "origin/main" |}.
  split; [left; reflexivity|]. split; [reflexivity|]. split; reflexivity.
Defined.

(** ** [save_config] *)







(** ** Push orchestration *)

Lemma mem_In (x : pystr) (l : list pystr) : mem x l = true <-> In x l.
Proof.
  unfold mem. rewrite existsb_exists. split.
  - intros [y [Hin E]]. apply str_eqb_spec in E. now subst.
  - intros Hin. exists x. split; [exact Hin|apply str_eqb_refl].
Qed.

(** The loop of [push_cli]: once a selection is made, every selected
    remote of [repo.remotes] is handled by [push_one], in the order of
    [repo.remotes], and [push_cli] returns. *)
Lemma push_cli_loop (fetch_all : Repo -> Repo) env repo branch args sel :
  select_remotes env (repo_remotes repo) args = Some sel ->
  push_cli fetch_all env repo branch args
  = Finished (flat_map (push_one env (has_upstreams fetch_all repo sel branch) branch)
                (List.filter (fun r => mem r sel) (repo_remotes repo))).
Proof.
  intros Hsel. unfold push_cli.
  destruct (repo_remotes repo) as [|r0 rs] eqn:Er; [discriminate|].
  now rewrite Hsel.
Qed.

Lemma push_cli_selected_lines (fetch_all : Repo -> Repo) env repo branch args sel remote :
  select_remotes env (repo_remotes repo) args = Some sel ->
  In remote (repo_remotes repo) -> In remote sel ->
  forall l, In l (push_one env (has_upstreams fetch_all repo sel branch) branch remote) ->
  exists out, push_cli fetch_all env repo branch args = Finished out /\ In l out.
Proof.
  intros Hsel Hin Hs l Hl. rewrite (push_cli_loop _ _ _ _ _ _ Hsel).
  eexists. split; [reflexivity|]. apply in_flat_map. exists remote. split; [|exact Hl].
  apply filter_In. split; [exact Hin|]. now apply mem_In.
Qed.

(** C10: [__exit__] returns [True] for every exception; for one that is
    not a [GitCommandError] it leaves [error] false and prints nothing,
    so [push_cli] prints ["Pushed to remote ..."] for the remote whose
    push raised. *)
Theorem catch_remote_exception_other_silent (remote tn txt : pystr) :
  cre_exit (cre_init remote) (Some (OtherExc tn txt)) = (cre_init remote, [], true) /\
  (forall exc, snd (cre_exit (cre_init remote) exc) = true) /\
  (forall fetch_all env repo branch args sel,
     select_remotes env (repo_remotes repo) args = Some sel ->
     In remote (repo_remotes repo) -> In remote sel ->
     upstream_of (has_upstreams fetch_all repo sel branch) remote = true ->
     push_raises env remote false = Some (OtherExc tn txt) ->
     exists out, push_cli fetch_all env repo branch args = Finished out /\
       In (col (s2l "Pushed to remote " ++ remote) "b" true) out).
Proof.
  split; [reflexivity|]. split; [intros [[]|]; reflexivity|].
  intros fetch_all env repo branch args sel Hsel Hin Hs Hup Hraise.
  apply (push_cli_selected_lines fetch_all env repo branch args sel remote Hsel Hin Hs).
  unfold push_one. rewrite Hup. simpl. rewrite Hraise. simpl. left. reflexivity.
Qed.

Lemma catch_remote_exception_other_silent_witness :
  let repo := {| repo_remotes := [s2l "origin"];
                 repo_refs := [{| ref_is_remote := true; ref_remote_name := s2l "origin";
                                  ref_name := s2l "origin/main" |}] |} in
  let env := {| chosen_remotes := []; set_upstream_answer := fun _ => true;
                push_raises := fun _ _ => Some (OtherExc (s2l "OSError") (s2l "boom")) |} in
  exists out, push_cli (fun r => r) env repo (s2l "main") [] = Finished out /\
    In (col (s2l "Pushed to remote " ++ s2l "origin") "b" true) out.
Proof.
  intros repo env.
  apply (proj2 (proj2 (catch_remote_exception_other_silent (s2l "origin") (s2l "OSError")
                         (s2l "boom"))) (fun r => r) env repo (s2l "main") [] [s2l "origin"]).
  - reflexivity.
  - left; reflexivity.
  - left; reflexivity.
  - vm_compute. reflexivity.
  - reflexivity.
Defined.

Lemma push_cli_call_fetch (fetch_all : Repo -> Repo) (fetch_raises : pystr -> option Exc)
  env repo branch args sel :
  select_remotes env (repo_remotes repo) args = Some sel ->
  push_cli_call fetch_all fetch_raises env repo branch args
  = match fetch_all_raises fetch_raises (repo_remotes repo) with
    | Some e => PushRaised e
    | None => PushReturned (push_cli fetch_all env repo branch args)
    end.
Proof.
  intros Hsel. unfold push_cli_call.
  destruct (repo_remotes repo) as [|r0 rs] eqn:Er; [discriminate|]. now rewrite Hsel.
Qed.

(** C5: a push raising an exception that is not a [GitCommandError]
    (here an [OSError] with text ["boom"]) is not displayed: the only
    line printed for the remote is the success message.  And a failed
    [git fetch] of a remote, even one that is not selected, makes
    [push_cli] raise before any push. *)
Lemma push_cli_other_exception_not_displayed :
  let refs := [{| ref_is_remote := true; ref_remote_name := s2l "origin";
                  ref_name := s2l "origin/main" |};
               {| ref_is_remote := true; ref_remote_name := s2l "fork";
                  ref_name := s2l "fork/main" |}] in
  let repo := {| repo_remotes := [s2l "origin"]; repo_refs := refs |} in
  let env := {| chosen_remotes := []; set_upstream_answer := fun _ => true;
                push_raises := fun _ _ => Some (OtherExc (s2l "OSError") (s2l "boom")) |} in
  let repo2 := {| repo_remotes := [s2l "origin"; s2l "fork"]; repo_refs := refs |} in
  let env2 := {| chosen_remotes := []; set_upstream_answer := fun _ => true;
                 push_raises := fun _ _ => None |} in
  let fetch2 := fun r => if str_eqb r (s2l "fork")
                         then Some (GitCommandError (s2l "fatal: could not read from remote"))
                         else None in
  push_cli_call (fun r => r) (fun _ => None) env repo (s2l "main") []
  = PushReturned (Finished [col (s2l "Pushed to remote origin") "b" true]) /\
  contains (col (s2l "Pushed to remote origin") "b" true) (s2l "boom") = false /\
  push_cli_call (fun r => r) fetch2 env2 repo2 (s2l "main") [s2l "origin"]
  = PushRaised (GitCommandError (s2l "fatal: could not read from remote")).
Proof. split; [|split]; vm_compute; reflexivity. Qed.

(** C5 (as amended): once remotes are selected, [push_cli] first
    fetches every remote of the repository, and an exception of a fetch
    propagates out of [push_cli] before any push.  When every fetch
    succeeds, [push_cli] returns normally, the lines of each selected
    remote (in the order of [repo.remotes]) printed one after the other,
    whatever happened on the other remotes.  For a remote that is pushed
    to, a [GitCommandError] of the push is printed with the remote's name
    and the error's [stderr]; an exception of any other type is
    suppressed without being displayed, and the success line is printed
    instead. *)
Theorem push_cli_git_error_reported (fetch_all : Repo -> Repo)
  (fetch_raises : pystr -> option Exc) env repo branch args sel :
  select_remotes env (repo_remotes repo) args = Some sel ->
  let ups := has_upstreams fetch_all repo sel branch in
  (forall e, fetch_all_raises fetch_raises (repo_remotes repo) = Some e ->
     push_cli_call fetch_all fetch_raises env repo branch args = PushRaised e) /\
  (fetch_all_raises fetch_raises (repo_remotes repo) = None ->
     push_cli_call fetch_all fetch_raises env repo branch args
     = PushReturned (Finished (flat_map (push_one env ups branch)
                                 (List.filter (fun r => mem r sel) (repo_remotes repo))))) /\
  (forall remote, (upstream_of ups remote = true \/ set_upstream_answer env remote = true) ->
     (forall err, push_raises env remote (negb (upstream_of ups remote))
                  = Some (GitCommandError err) ->
        push_one env ups branch remote
        = [s2l "[bold red]Error:[/bold red] could not push to " ++ remote ++ s2l ":";
           s2l "[red]" ++ err ++ s2l "[/red]"]) /\
     (forall tn txt, push_raises env remote (negb (upstream_of ups remote))
                     = Some (OtherExc tn txt) ->
        push_one env ups branch remote
        = [col (s2l "Pushed to remote " ++ remote) "b" true ++
           (if upstream_of ups remote then []
            else col (s2l " (upstream branch created)") "b" true)])).
Proof.
  intros Hsel ups. pose proof (push_cli_call_fetch fetch_all fetch_raises _ _ branch _ _ Hsel) as Hc.
  split; [|split].
  - intros e He. now rewrite Hc, He.
  - intros Hn. rewrite Hc, Hn. f_equal. now apply push_cli_loop.
  - intros remote Hgo. split.
    + intros err Hraise. unfold push_one. destruct (upstream_of ups remote) eqn:Eu.
      * simpl in Hraise |- *. rewrite Hraise. reflexivity.
      * destruct Hgo as [Hgo|Hgo]; [discriminate|]. rewrite Hgo. simpl in Hraise |- *.
        rewrite Hraise. reflexivity.
    + intros tn txt Hraise. unfold push_one. destruct (upstream_of ups remote) eqn:Eu.
      * simpl in Hraise |- *. rewrite Hraise. simpl. now rewrite app_nil_r.
      * destruct Hgo as [Hgo|Hgo]; [discriminate|]. rewrite Hgo. simpl in Hraise |- *.
        rewrite Hraise. reflexivity.
Qed.

Lemma push_cli_git_error_reported_witness :
  let repo := {| repo_remotes := [s2l "origin"; s2l "fork"];
                 repo_refs := [{| ref_is_remote := true; ref_remote_name := s2l "origin";
                                  ref_name := s2l "origin/main" |};
                               {| ref_is_remote := true; ref_remote_name := s2l "fork";
                                  ref_name := s2l "fork/main" |}] |} in
  let env := {| chosen_remotes := []; set_upstream_answer := fun _ => true;
                push_raises := fun r _ => if str_eqb r (s2l "fork")
                                          then Some (GitCommandError (s2l "rejected"))
                                          else Some (OtherExc (s2l "OSError") (s2l "boom")) |} in
  let sel := [s2l "origin"; s2l "fork"] in
  select_remotes env (repo_remotes repo) sel = Some sel /\
  push_cli_call (fun r => r) (fun _ => None) env repo (s2l "main") sel
  = PushReturned (Finished (flat_map (push_one env (has_upstreams (fun r => r) repo sel (s2l "main"))
                                        (s2l "main"))
                              (List.filter (fun r => mem r sel) (repo_remotes repo)))).
Proof.
  intros repo env sel.
  assert (H : select_remotes env (repo_remotes repo) sel = Some sel) by reflexivity.
  split; [exact H|].
  exact (proj1 (proj2 (push_cli_git_error_reported (fun r => r) (fun _ => None) env repo
                         (s2l "main") sel sel H)) eq_refl).
Defined.

(** ** Remote divergence banner *)

Lemma dict_set_fresh {V} (d : list (pystr * V)) k v :
  ~ In k (map fst d) -> dict_set d k v = d ++ [(k, v)].
Proof.
  induction d as [|[k0 v0] d IH]; intros Hn; [reflexivity|].
  simpl in Hn |- *. destruct (str_eqb k0 k) eqn:E.
  - apply str_eqb_spec in E. subst. tauto.
  - f_equal. apply IH. tauto.
Qed.

Lemma dict_get_nodup_in {V} (d : list (pystr * V)) k v :
  List.NoDup (map fst d) -> In (k, v) d -> dict_get d k = Some v.
Proof.
  induction d as [|[k0 v0] d IH]; intros Hnd Hin; [destruct Hin|].
  simpl in Hnd. apply NoDup_cons_iff in Hnd as [Hn0 Hnd]. simpl.
  destruct Hin as [E|Hin].
  - injection E as -> ->. now rewrite str_eqb_refl.
  - destruct (str_eqb k0 k) eqn:E.
    + apply str_eqb_spec in E. subst k0. exfalso. apply Hn0.
      apply in_map_iff. now exists (k, v).
    + now apply IH.
Qed.

(** A loop that assigns, for each element, at most one fresh key of a
    dictionary builds the list of these entries in order. *)
Lemma fold_set_fresh {A V} (step : list (pystr * V) -> A -> list (pystr * V))
  (g : A -> option (pystr * V))
  (Hstep : forall d a, step d a = match g a with
                                  | Some kv => dict_set d (fst kv) (snd kv)
                                  | None => d end)
  (l : list A) (acc : list (pystr * V)) :
  List.NoDup (map fst acc ++ map fst (flat_map (fun a => match g a with
                                                    | Some kv => [kv] | None => [] end) l)) ->
  fold_left step l acc
  = acc ++ flat_map (fun a => match g a with Some kv => [kv] | None => [] end) l.
Proof.
  revert acc. induction l as [|a l IH]; intros acc Hnd; simpl; [now rewrite app_nil_r|].
  rewrite Hstep. simpl in Hnd. destruct (g a) as [kv|] eqn:Eg.
  - simpl in Hnd. rewrite dict_set_fresh.
    + rewrite IH.
      * rewrite <- app_assoc. destruct kv; reflexivity.
      * rewrite map_app, <- app_assoc. exact Hnd.
    + intros Hin. apply NoDup_remove_2 in Hnd. apply Hnd, in_or_app. now left.
  - now apply IH.
Qed.

Lemma bad_revision_contains (range : pystr) :
  contains (bad_revision range) (s2l "fatal: bad revision") = true.
Proof.
  assert (E : bad_revision range
              = (s2l "Cmd('git') failed due to: exit code(128)" ++ [10] ++
                 s2l "  cmdline: git rev-list " ++ range ++ [10] ++ s2l "  stderr: '")
                ++ s2l "fatal: bad revision" ++ (s2l " '" ++ range ++ s2l "''")).
  { unfold bad_revision. rewrite <- !app_assoc. reflexivity. }
  rewrite E. apply contains_infix.
Qed.

Lemma behind_entries_states (b : pystr) (states : list (pystr * RemoteState)) :
  flat_map (fun a => match (match rr_behind a with
      | Count n => Some (rr_name a, BInt n)
      | RevError msg => if contains msg (s2l "fatal: bad revision")
                        then Some (rr_name a, NoBranch) else None end) with
      | Some kv => [kv] | None => [] end) (map (revs_of b) states)
  = map (fun p => (fst p, match snd p with Tracking bh _ => BInt bh | Missing => NoBranch end))
        states.
Proof.
  induction states as [|[n st] states IH]; [reflexivity|].
  destruct st; cbn [map flat_map revs_of rr_behind rr_name];
    rewrite ?bad_revision_contains; cbn [app fst snd]; f_equal; exact IH.
Qed.

Lemma commits_behind_states (b : pystr) (states : list (pystr * RemoteState)) :
  List.NoDup (map fst states) ->
  commits_behind (map (revs_of b) states)
  = map (fun p => (fst p, match snd p with Tracking bh _ => BInt bh | Missing => NoBranch end))
        states.
Proof.
  intros Hnd. unfold commits_behind.
  rewrite (fold_set_fresh _ (fun r => match rr_behind r with
      | Count n => Some (rr_name r, BInt n)
      | RevError msg => if contains msg (s2l "fatal: bad revision")
                        then Some (rr_name r, NoBranch) else None end)).
  - now rewrite behind_entries_states.
  - intros d a. destruct (rr_behind a); [reflexivity|].
    now destruct (contains msg _).
  - rewrite behind_entries_states, map_map. exact Hnd.
Qed.

Lemma ahead_entries_states (b : pystr) (states : list (pystr * RemoteState)) :
  flat_map (fun a => match (match rr_ahead a with
      | Count n => Some (rr_name a, n) | RevError _ => None end) with
      | Some kv => [kv] | None => [] end) (map (revs_of b) states)
  = flat_map (fun p => match snd p with Tracking _ ah => [(fst p, ah)] | Missing => [] end)
      states.
Proof.
  induction states as [|[n st] states IH]; [reflexivity|].
  destruct st; cbn [map flat_map revs_of rr_ahead rr_name app snd fst]; now rewrite IH.
Qed.

Lemma ahead_keys_in (states : list (pystr * RemoteState)) x :
  In x (map fst (flat_map (fun p => match snd p with
                                    | Tracking _ ah => [(fst p, ah)] | Missing => [] end) states))
  -> In x (map fst states).
Proof.
  induction states as [|[n st] states IH]; [intros []|].
  destruct st; simpl; [intros [H|H]; [now left|right; now apply IH]|].
  intros H. right. now apply IH.
Qed.

Lemma ahead_keys_nodup (states : list (pystr * RemoteState)) :
  List.NoDup (map fst states) ->
  List.NoDup (map fst (flat_map (fun p => match snd p with
                                     | Tracking _ ah => [(fst p, ah)] | Missing => [] end) states)).
Proof.
  induction states as [|[n st] states IH]; intros Hnd; [constructor|].
  simpl in Hnd. apply NoDup_cons_iff in Hnd as [Hn Hnd].
  destruct st; simpl; [|now apply IH].
  constructor; [|now apply IH]. intros Hin. now apply Hn, ahead_keys_in.
Qed.

Lemma commits_ahead_states (b : pystr) (states : list (pystr * RemoteState)) :
  List.NoDup (map fst states) ->
  commits_ahead (map (revs_of b) states)
  = flat_map (fun p => match snd p with Tracking _ ah => [(fst p, ah)] | Missing => [] end)
      states.
Proof.
  intros Hnd. unfold commits_ahead.
  rewrite (fold_set_fresh _ (fun r => match rr_ahead r with
      | Count n => Some (rr_name r, n) | RevError _ => None end)).
  - now rewrite ahead_entries_states.
  - intros d a. now destruct (rr_ahead a).
  - rewrite ahead_entries_states. now apply ahead_keys_nodup.
Qed.

(** The aggregate of [format_remotes_diff] counts the tracked remotes
    only: a missing branch adds nothing. *)
Lemma diff_total_states (states : list (pystr * RemoteState)) :
  diff_total
    (map (fun p => (fst p, match snd p with Tracking bh _ => BInt bh | Missing => NoBranch end))
         states)
    (flat_map (fun p => match snd p with Tracking _ ah => [(fst p, ah)] | Missing => [] end)
       states)
  = list_sum (map (fun p => match snd p with Tracking bh ah => (bh + ah)%nat | Missing => 0%nat end)
                states).
Proof.
  unfold diff_total. induction states as [|[n st] states IH]; [reflexivity|].
  destruct st; simpl in *; lia.
Qed.

Lemma banner_condition_states (states : list (pystr * RemoteState)) :
  (list_sum (map (fun p => match snd p with Tracking bh ah => (bh + ah)%nat | Missing => 0%nat end)
                 states) = 0%nat /\
   no_branch (map (fun p => (fst p, match snd p with Tracking bh _ => BInt bh
                                                    | Missing => NoBranch end)) states) = [])
  <-> Forall (fun p => snd p = Tracking 0 0) states.
Proof.
  induction states as [|[n st] states IH]; simpl; [split; [constructor|tauto]|].
  rewrite Forall_cons_iff. destruct st as [bh ah|]; simpl.
  - unfold no_branch in IH |- *. simpl. rewrite <- IH. split.
    + intros [Hs Hn]. split; [f_equal; lia|]. split; [lia|exact Hn].
    + intros [Ht [Hs Hn]]. injection Ht as -> ->. split; [lia|exact Hn].
  - unfold no_branch. simpl. split; [intros [_ H]; discriminate|intros [H _]; discriminate].
Qed.

Lemma diff_lines_all (behind : list (pystr * Behind)) (ahead : list (pystr * nat)) (b : pystr)
  (rs : list pystr) :
  (forall r, In r rs -> exists p, diff_piece behind ahead b r = Some p) ->
  exists q, diff_lines behind ahead b rs = Some q /\
    forall r p, In r rs -> diff_piece behind ahead b r = Some p ->
      exists pre post, q = pre ++ p ++ post.
Proof.
  induction rs as [|r rs IH]; intros Hall.
  - exists []. split; [reflexivity|]. intros r p [].
  - destruct (Hall r (or_introl eq_refl)) as [p0 Hp0].
    destruct IH as [q' [Hq' Hin']]; [intros r' Hr'; apply Hall; now right|].
    exists (p0 ++ q'). simpl. rewrite Hp0, Hq'. split; [reflexivity|].
    intros r' p [<-|Hr'] Hp.
    + rewrite Hp0 in Hp. injection Hp as <-. now exists [], q'.
    + destruct (Hin' r' p Hr' Hp) as [pre [post ->]].
      exists (p0 ++ pre), post. now rewrite <- app_assoc.
Qed.

Lemma missing_line_contains (n b : pystr) :
  contains (col (s2l "remote " ++ n ++ s2l " does not have a branch " ++ b ++ [10]) "y" false)
    (s2l "remote " ++ n ++ s2l " does not have a branch ") = true.
Proof.
  assert (E : col (s2l "remote " ++ n ++ s2l " does not have a branch " ++ b ++ [10]) "y" false
              = s2l "[yellow3]" ++ (s2l "remote " ++ n ++ s2l " does not have a branch ")
                ++ (b ++ [10] ++ s2l "[/]")).
  { unfold col. rewrite <- !app_assoc. reflexivity. }
  rewrite E. apply contains_infix.
Qed.

Lemma behind_line_contains (n k : pystr) :
  contains (col (s2l "  " ++ [8629] ++ s2l " local is behind " ++ n ++ s2l " by "
                 ++ k ++ s2l " commit(s)" ++ [10]) "o" false)
    (s2l " local is behind " ++ n ++ s2l " by ") = true.
Proof.
  assert (E : col (s2l "  " ++ [8629] ++ s2l " local is behind " ++ n ++ s2l " by "
                   ++ k ++ s2l " commit(s)" ++ [10]) "o" false
              = (s2l "[orange3]  " ++ [8629]) ++ (s2l " local is behind " ++ n ++ s2l " by ")
                ++ (k ++ s2l " commit(s)" ++ [10] ++ s2l "[/]")).
  { unfold col. rewrite <- !app_assoc. reflexivity. }
  rewrite E. apply contains_infix.
Qed.

Lemma ahead_line_contains (n k : pystr) :
  contains (col (s2l "  " ++ [8627] ++ s2l " local is ahead of " ++ n ++ s2l " by "
                 ++ k ++ s2l " commit(s)" ++ [10]) "p" false)
    (s2l " local is ahead of " ++ n ++ s2l " by ") = true.
Proof.
  assert (E : col (s2l "  " ++ [8627] ++ s2l " local is ahead of " ++ n ++ s2l " by "
                   ++ k ++ s2l " commit(s)" ++ [10]) "p" false
              = (s2l "[plum3]  " ++ [8627]) ++ (s2l " local is ahead of " ++ n ++ s2l " by ")
                ++ (k ++ s2l " commit(s)" ++ [10] ++ s2l "[/]")).
  { unfold col. rewrite <- !app_assoc. reflexivity. }
  rewrite E. apply contains_infix.
Qed.

(** C4: for remotes with distinct names, the aggregate compared with 0
    counts tracked remotes only (a missing branch adds nothing);
    [format_remotes_diff] returns a string, which is empty exactly when
    every remote is tracked with 0 commits behind and 0 ahead; and every
    remote with a missing branch, commits behind or commits ahead has a
    line naming it in that string. *)
Theorem format_remotes_diff_spec (b : pystr) (states : list (pystr * RemoteState))
  (Hnd : List.NoDup (map fst states)) :
  diff_total (commits_behind (map (revs_of b) states)) (commits_ahead (map (revs_of b) states))
  = list_sum (map (fun p => match snd p with Tracking bh ah => (bh + ah)%nat
                                            | Missing => 0%nat end) states) /\
  exists out, format_remotes_diff b (map (revs_of b) states) = Some out /\
    (out = [] <-> Forall (fun p => snd p = Tracking 0 0) states) /\
    (forall n st, In (n, st) states ->
       (st = Missing ->
          contains out (s2l "remote " ++ n ++ s2l " does not have a branch ") = true) /\
       (forall bh ah, st = Tracking bh ah -> (0 < bh)%nat ->
          contains out (s2l " local is behind " ++ n ++ s2l " by ") = true) /\
       (forall bh ah, st = Tracking bh ah -> (0 < ah)%nat ->
          contains out (s2l " local is ahead of " ++ n ++ s2l " by ") = true)).
Proof.
  rewrite (commits_behind_states b states Hnd), (commits_ahead_states b states Hnd).
  split; [apply diff_total_states|].
  unfold format_remotes_diff.
  rewrite (commits_behind_states b states Hnd), (commits_ahead_states b states Hnd).
  set (BL := map (fun p => (fst p, match snd p with Tracking bh _ => BInt bh
                                                   | Missing => NoBranch end)) states).
  set (AL := flat_map (fun p => match snd p with Tracking _ ah => [(fst p, ah)]
                                               | Missing => [] end) states).
  assert (HBL : forall n st, In (n, st) states ->
            dict_get BL n = Some (match st with Tracking bh _ => BInt bh | Missing => NoBranch end)).
  { intros n st Hin. apply dict_get_nodup_in.
    - subst BL. rewrite map_map. exact Hnd.
    - subst BL. apply in_map_iff. exists (n, st). split; [reflexivity|exact Hin]. }
  assert (HAL : forall n bh ah, In (n, Tracking bh ah) states -> dict_get AL n = Some ah).
  { intros n bh ah Hin. apply dict_get_nodup_in.
    - now apply ahead_keys_nodup.
    - apply in_flat_map. exists (n, Tracking bh ah). split; [exact Hin|left; reflexivity]. }
  assert (Hsome : forall r, In r (map rr_name (map (revs_of b) states)) ->
                  exists p, diff_piece BL AL b r = Some p).
  { rewrite map_map. intros r Hr. apply in_map_iff in Hr as [[n st] [E Hin]].
    destruct st as [bh ah|]; simpl in E; subst r; unfold diff_piece; rewrite (HBL _ _ Hin).
    - rewrite (HAL _ _ _ Hin). eexists. reflexivity.
    - eexists. reflexivity. }
  destruct (diff_lines_all BL AL b _ Hsome) as [q [Hq Hinq]].
  pose proof (banner_condition_states states) as Hcond. rewrite <- diff_total_states in Hcond.
  fold BL AL in Hcond.
  destruct (Nat.eqb (diff_total BL AL) 0 && match no_branch BL with [] => true | _ => false end)
    eqn:Econd.
  - assert (Hall : Forall (fun p => snd p = Tracking 0 0) states).
    { apply Hcond. apply andb_true_iff in Econd as [E1 E2]. apply Nat.eqb_eq in E1.
      split; [exact E1|]. now destruct (no_branch BL). }
    exists []. split; [reflexivity|]. split; [tauto|].
    intros n st Hin. rewrite List.Forall_forall in Hall. specialize (Hall (n, st) Hin).
    simpl in Hall. subst st. split; [discriminate|].
    split; intros bh ah E H; injection E as <- <-; lia.
  - eexists. rewrite Hq. split; [reflexivity|]. split.
    + split; [intros H; simpl in H; discriminate|].
      intros Hall. apply Hcond in Hall as [E1 E2]. rewrite E1, E2 in Econd. discriminate.
    + assert (Hsub : forall n p t, In n (map rr_name (map (revs_of b) states)) ->
                     diff_piece BL AL b n = Some p -> contains p t = true ->
                     contains (s2l "[u]" ++ col (s2l "Remotes diff:") "g" false ++ s2l "[/u]"
                               ++ [10] ++ q) t = true).
      { intros n p t Hn Hp Ht. destruct (Hinq n p Hn Hp) as [pre [post ->]].
        rewrite !app_assoc. apply contains_app_l. rewrite <- !app_assoc.
        apply contains_app_r. apply contains_app_r. apply contains_app_r. apply contains_app_r.
        apply contains_app_r. exact Ht. }
      assert (Hn : forall n st, In (n, st) states -> In n (map rr_name (map (revs_of b) states))).
      { intros n st Hin. rewrite map_map. apply in_map_iff. exists (n, st).
        split; [now destruct st|exact Hin]. }
      intros n st Hin. split; [|split].
      * intros ->. eapply Hsub; [exact (Hn _ _ Hin)| |apply missing_line_contains].
        unfold diff_piece. rewrite (HBL _ _ Hin). reflexivity.
      * intros bh ah -> Hbh. eapply Hsub; [exact (Hn _ _ Hin)| |].
        -- unfold diff_piece. rewrite (HBL _ _ Hin), (HAL _ _ _ Hin). reflexivity.
        -- assert (Et : behind_truthy (BInt bh) = true).
           { simpl. destruct bh; [lia|reflexivity]. }
           rewrite Et. apply contains_app_l. apply behind_line_contains.
      * intros bh ah -> Hah. eapply Hsub; [exact (Hn _ _ Hin)| |].
        -- unfold diff_piece. rewrite (HBL _ _ Hin), (HAL _ _ _ Hin). reflexivity.
        -- assert (Ea : Nat.eqb ah 0 = false) by (apply Nat.eqb_neq; lia).
           rewrite Ea. apply contains_app_r. apply ahead_line_contains.
Qed.

Lemma format_remotes_diff_spec_witness :
  List.NoDup (map fst [(s2l "origin", Tracking 2 0); (s2l "fork", Missing)]) /\
  exists out, format_remotes_diff (s2l "main")
                (map (revs_of (s2l "main")) [(s2l "origin", Tracking 2 0); (s2l "fork", Missing)])
              = Some out /\
    contains out (s2l "remote " ++ s2l "fork" ++ s2l " does not have a branch ") = true.
Proof.
  assert (Hnd : List.NoDup (map fst [(s2l "origin", Tracking 2 0); (s2l "fork", Missing)])).
  { repeat constructor; simpl; intuition discriminate. }
  split; [exact Hnd|].
  destruct (proj2 (format_remotes_diff_spec (s2l "main")
                     [(s2l "origin", Tracking 2 0); (s2l "fork", Missing)] Hnd))
    as [out [Hout [_ Hlines]]].
  exists out. split; [exact Hout|].
  apply (proj1 (Hlines (s2l "fork") Missing (or_intror (or_introl eq_refl)))). reflexivity.
Defined.


(** ** Completion candidates *)

Lemma dict_get_some_in {V} (d : list (pystr * V)) k v :
  dict_get d k = Some v -> In (k, v) d.
Proof.
  induction d as [|[k0 v0] d IH]; simpl; [discriminate|].
  destruct (str_eqb k0 k) eqn:E.
  - apply str_eqb_spec in E. subst. intros H. injection H as ->. now left.
  - intros H. right. now apply IH.
Qed.

Lemma dict_set_nodup {V} (d : list (pystr * V)) k v :
  List.NoDup (map fst d) -> List.NoDup (map fst (dict_set d k v)).
Proof.
  induction d as [|[k0 v0] d IH]; intros Hnd; simpl; [repeat constructor; intros []|].
  simpl in Hnd. apply NoDup_cons_iff in Hnd as [Hn Hnd].
  destruct (str_eqb k0 k) eqn:E.
  - apply str_eqb_spec in E. subst. simpl. now constructor.
  - apply str_eqb_false in E. simpl. constructor; [|now apply IH].
    rewrite dict_keys_set. intuition congruence.
Qed.

Lemma dict_set_in_pairs {V} (d : list (pystr * V)) k v x y :
  List.NoDup (map fst d) -> In (x, y) (dict_set d k v) ->
  (x = k /\ y = v) \/ (In (x, y) d /\ x <> k).
Proof.
  induction d as [|[k0 v0] d IH]; intros Hnd Hin; simpl in Hin.
  - destruct Hin as [E|[]]. injection E as -> ->. now left.
  - simpl in Hnd. apply NoDup_cons_iff in Hnd as [Hn Hnd].
    destruct (str_eqb k0 k) eqn:E.
    + apply str_eqb_spec in E. subst k0. destruct Hin as [E|Hin].
      * injection E as -> ->. now left.
      * right. split; [now right|]. intros ->. apply Hn, in_map_iff. now exists (k, y).
    + apply str_eqb_false in E. destruct Hin as [E'|Hin].
      * injection E' as -> ->. right. split; [now left|exact E].
      * destruct (IH Hnd Hin) as [H|[H1 H2]]; [now left|right; split; [now right|exact H2]].
Qed.

Section Candidates.

Variable key : Key.

Lemma most_recent_extend_other P c v t :
  field key c <> v -> most_recent key P v t -> most_recent key (P ++ [c]) v t.
Proof.
  intros Hne [[e (He & Hf & Ht)] Hmax]. split.
  - exists e. split; [apply in_or_app; now left|now split].
  - intros e' Hin Hf'. apply in_app_or in Hin as [Hin|[<-|[]]]; [now apply Hmax|congruence].
Qed.

Lemma cand_step_inv P acc c :
  cand_inv key P acc -> cand_inv key (P ++ [c]) (cand_step key acc c).
Proof.
  intros (Hnd & Hmr & Hall).
  assert (Hfresh : forall t, (dict_get acc (field key c) = None -> t = h_timestamp c) ->
            (forall t0, dict_get acc (field key c) = Some t0 -> t = Z.max t0 (h_timestamp c)) ->
            cand_inv key (P ++ [c]) (dict_set acc (field key c) t)).
  { intros t Hnone Hsome. split; [|split].
    - now apply dict_set_nodup.
    - intros v t' Hin.
      destruct (dict_set_in_pairs acc _ _ v t' Hnd Hin) as [[-> ->]|[Hin' Hne]].
      + destruct (dict_get acc (field key c)) as [t0|] eqn:Eg.
        * rewrite (Hsome t0 eq_refl). apply dict_get_some_in, Hmr in Eg as [[e (He & Hf & Ht)] Hmax].
          split.
          -- destruct (Z.le_ge_cases (h_timestamp c) t0).
             ++ exists e. split; [apply in_or_app; now left|]. split; [exact Hf|lia].
             ++ exists c. split; [apply in_or_app; right; now left|]. split; [reflexivity|lia].
          -- intros e' Hin' Hf'. apply in_app_or in Hin' as [Hin'|[<-|[]]].
             ++ specialize (Hmax e' Hin' Hf'). lia.
             ++ lia.
        * rewrite (Hnone eq_refl). apply dict_get_none in Eg. split.
          -- exists c. split; [apply in_or_app; right; now left|]. now split.
          -- intros e' Hin' Hf'. apply in_app_or in Hin' as [Hin'|[<-|[]]]; [|lia].
             exfalso. apply Eg. rewrite <- Hf'. now apply Hall.
      + apply most_recent_extend_other; [congruence|]. now apply Hmr.
    - intros e Hin. rewrite dict_keys_set. apply in_app_or in Hin as [Hin|[<-|[]]].
      + right. now apply Hall.
      + now left. }
  unfold cand_step. destruct (dict_get acc (field key c)) as [t0|] eqn:Eg.
  - apply Hfresh; [discriminate|]. intros t1 H. injection H as ->. reflexivity.
  - apply Hfresh; [reflexivity|discriminate].
Qed.

Lemma candidates_inv (history : list HistoryEntry) :
  cand_inv key history (candidates key history).
Proof.
  unfold candidates.
  assert (H : forall l P acc, cand_inv key P acc -> cand_inv key (P ++ l) (fold_left (cand_step key) l acc)).
  { induction l as [|c l IH]; intros P acc Hinv; simpl; [now rewrite app_nil_r|].
    replace (P ++ c :: l) with ((P ++ [c]) ++ l) by now rewrite <- app_assoc.
    apply IH. now apply cand_step_inv. }
  apply (H history []). split; [constructor|]. split; [intros v t []|intros e []].
Qed.

End Candidates.

(** ** Stable descending sort *)

Lemma insert_desc_perm (x : pystr * Z) (l : list (pystr * Z)) :
  Permutation (insert_by (fun y x => snd x <=? snd y) x l) (x :: l).
Proof.
  induction l as [|y l IH]; simpl; [reflexivity|].
  destruct (snd x <=? snd y); [|reflexivity].
  rewrite IH. apply perm_swap.
Qed.

Lemma insert_desc_hd (a x : pystr * Z) (l : list (pystr * Z)) :
  HdRel (fun p q => snd q <= snd p) a l -> snd x <= snd a ->
  HdRel (fun p q => snd q <= snd p) a (insert_by (fun y x => snd x <=? snd y) x l).
Proof.
  intros Hd Hx. destruct l as [|y l]; simpl; [now constructor|].
  destruct (snd x <=? snd y); constructor; [now inversion Hd|exact Hx].
Qed.

Lemma insert_desc_sorted (x : pystr * Z) (l : list (pystr * Z)) :
  Sorted (fun p q => snd q <= snd p) l ->
  Sorted (fun p q => snd q <= snd p) (insert_by (fun y x => snd x <=? snd y) x l).
Proof.
  induction l as [|y l IH]; intros Hs; simpl; [repeat constructor|].
  apply Sorted_inv in Hs as [Hs Hd].
  destruct (snd x <=? snd y) eqn:E.
  - apply Z.leb_le in E. constructor; [now apply IH|]. now apply insert_desc_hd.
  - apply Z.leb_gt in E. constructor; [now constructor|]. constructor. lia.
Qed.

Lemma sort_desc_props (l : list (pystr * Z)) :
  Permutation (sort_desc l) l /\ Sorted (fun p q => snd q <= snd p) (sort_desc l).
Proof.
  unfold sort_desc, sort_by.
  assert (H : forall (l : list (pystr * Z)) (acc : list (pystr * Z)), Sorted (fun p q => snd q <= snd p) acc ->
     Permutation (fold_left (fun acc x => insert_by (fun y x => snd x <=? snd y) x acc) l acc)
                 (l ++ acc) /\
     Sorted (fun p q => snd q <= snd p)
       (fold_left (fun acc x => insert_by (fun y x => snd x <=? snd y) x acc) l acc)).
  { induction l0 as [|x l0 IH]; intros acc Hs; simpl; [split; [reflexivity|exact Hs]|].
    destruct (IH _ (insert_desc_sorted x acc Hs)) as [Hp Hs'].
    split; [|exact Hs'].
    rewrite Hp, insert_desc_perm. symmetry. apply Permutation_middle. }
  destruct (H l [] (Sorted_nil _)) as [Hp Hs]. rewrite app_nil_r in Hp. now split.
Qed.

Lemma strongly_sorted_app_prefix {A} (R : A -> A -> Prop) (l1 l2 : list A) :
  StronglySorted R (l1 ++ l2) -> StronglySorted R l1.
Proof.
  induction l1 as [|a l1 IH]; intros H; [constructor|].
  simpl in H. apply StronglySorted_inv in H as [H1 H2]. constructor; [now apply IH|].
  rewrite List.Forall_forall in H2 |- *. intros x Hx. apply H2, in_or_app. now left.
Qed.

Lemma strongly_sorted_app_rel {A} (R : A -> A -> Prop) (l1 l2 : list A) x y :
  StronglySorted R (l1 ++ l2) -> In x l1 -> In y l2 -> R x y.
Proof.
  induction l1 as [|a l1 IH]; intros H Hx Hy; [destruct Hx|].
  simpl in H. apply StronglySorted_inv in H as [H1 H2]. destruct Hx as [<-|Hx].
  - rewrite List.Forall_forall in H2. apply H2, in_or_app. now right.
  - now apply IH.
Qed.

Lemma nodup_map_filter {A B} (f : A -> B) (p : A -> bool) (l : list A) :
  List.NoDup (map f l) -> List.NoDup (map f (List.filter p l)).
Proof.
  induction l as [|a l IH]; intros Hnd; simpl; [constructor|].
  simpl in Hnd. apply NoDup_cons_iff in Hnd as [Hn Hnd].
  destruct (p a); simpl; [|now apply IH].
  constructor; [|now apply IH]. intros Hin. apply Hn.
  apply in_map_iff in Hin as [y [<- Hy]]. apply filter_In in Hy as [Hy _].
  now apply in_map.
Qed.

Lemma most_recent_unique key history v t t' :
  most_recent key history v t -> most_recent key history v t' -> t = t'.
Proof.
  intros [[e (He & Hf & Ht)] Hmax] [[e' (He' & Hf' & Ht')] Hmax'].
  specialize (Hmax e' He' Hf'). specialize (Hmax' e He Hf). lia.
Qed.

(** C8: the completer for a text field yields the values [map fst R] of a
    list [R] of at most 10 pairs [(v, t)] with distinct values [v], each a
    value of that field in the history whose lower-cased text starts with
    the lower-cased input and [t] its most recent timestamp, in descending
    order of [t]; an eligible value left out is only possible when [R]
    already has 10 entries, all at least as recent as it. *)
Theorem get_completions_spec (key : Key) (history : list HistoryEntry) (text : pystr) :
  exists R, get_completions key history text = map fst R /\ (length R <= 10)%nat /\
    List.NoDup (map fst R) /\
    (forall v t, In (v, t) R ->
       most_recent key history v t /\ startswith (py_lower v) (py_lower text) = true) /\
    Sorted (fun p q => snd q <= snd p) R /\
    (forall v t, most_recent key history v t ->
       startswith (py_lower v) (py_lower text) = true ->
       ~ In v (map fst R) -> length R = 10%nat /\ Forall (fun p => t <= snd p) R).
Proof.
  destruct (candidates_inv key history) as (Hnd & Hmr & Hall).
  set (pm := fun kv : pystr * Z => startswith (py_lower (fst kv)) (py_lower text)).
  set (C := candidates key history) in *.
  set (F := List.filter pm C).
  destruct (sort_desc_props F) as [Hp Hs].
  set (S := sort_desc F) in *.
  assert (HndS : List.NoDup (map fst S)).
  { apply (Permutation_NoDup (l := map fst F)).
    - symmetry. now apply Permutation_map.
    - now apply nodup_map_filter. }
  assert (HSS : StronglySorted (fun p q : pystr * Z => snd q <= snd p) S).
  { apply Sorted_StronglySorted; [intros x y z; lia|exact Hs]. }
  pose proof (firstn_skipn 10 S) as Hsplit.
  assert (HinS : forall p, In p (firstn 10 S) -> In p S).
  { intros p Hin. rewrite <- Hsplit. apply in_or_app. now left. }
  exists (firstn 10 S). split; [reflexivity|]. split; [apply firstn_le_length|].
  split.
  { rewrite <- List.firstn_map. rewrite <- (firstn_skipn 10 (map fst S)) in HndS.
    now apply NoDup_app_remove_r in HndS. }
  split.
  { intros v t Hin. apply HinS in Hin. apply (Permutation_in _ Hp) in Hin.
    unfold F in Hin. apply filter_In in Hin as [Hin Hm]. split; [now apply Hmr|exact Hm]. }
  split.
  { apply StronglySorted_Sorted. rewrite <- Hsplit in HSS.
    now apply strongly_sorted_app_prefix in HSS. }
  intros v t Hmost Hm Hnot.
  destruct Hmost as [[e (He & Hf & Ht)] Hmax] eqn:Emost.
  pose proof (Hall e He) as Hv. rewrite Hf in Hv.
  apply in_map_iff in Hv as [[v' t'] [Ev Hvt]]. simpl in Ev. subst v'.
  assert (t' = t) as ->.
  { apply (most_recent_unique key history v); [now apply Hmr|exact Hmost]. }
  assert (HinF : In (v, t) F) by (apply filter_In; split; [exact Hvt|exact Hm]).
  assert (HinS' : In (v, t) S) by (apply (Permutation_in _ (Permutation_sym Hp)); exact HinF).
  assert (Hsk : In (v, t) (skipn 10 S)).
  { rewrite <- Hsplit in HinS'. apply in_app_or in HinS' as [H|H]; [|exact H].
    exfalso. apply Hnot. apply in_map_iff. now exists (v, t). }
  split.
  - rewrite length_firstn.
    assert (length (skipn 10 S) <> 0%nat) by (destruct (skipn 10 S); [destruct Hsk|discriminate]).
    rewrite length_skipn in H. lia.
  - apply List.Forall_forall. intros p Hpin. rewrite <- Hsplit in HSS.
    exact (strongly_sorted_app_rel _ _ _ p (v, t) HSS Hpin Hsk).
Qed.

(** ** [choice_separator] *)

Lemma str_mul_length (s : pystr) (n : Z) :
  length (str_mul s n) = (length s * Z.to_nat n)%nat.
Proof.
  unfold str_mul. induction (Z.to_nat n) as [|k IH]; simpl; [lia|].
  rewrite length_app, IH. lia.
Qed.

(** With a non-empty separator text and a positive width, the line is
    [first] copies of [sep], a space, the title, a space and [second]
    copies of [sep], where [first + second + len(title) + 2] is the
    larger of [width] and [len(title) + 4]: a title too long for the
    width widens the line.  The left run is one or two copies longer
    than the right run, so the title is never exactly centred.  With a
    one-character separator the line is [max(width, len(title) + 4)]
    characters long. *)
Theorem choice_separator_layout (title : pystr) (width : Z) (sep : pystr) :
  sep <> [] -> 0 < width ->
  exists first second,
    choice_separator title width sep
      = AOk (str_mul sep first ++ [32] ++ title ++ [32] ++ str_mul sep second) /\
    0 <= second /\ (first = second + 1 \/ first = second + 2) /\
    first + second + Z.of_nat (length title) + 2 = Z.max width (Z.of_nat (length title) + 4) /\
    (length sep = 1%nat ->
     Z.of_nat (length (str_mul sep first ++ [32] ++ title ++ [32] ++ str_mul sep second))
     = Z.max width (Z.of_nat (length title) + 4)).
Proof.
  intros Hsep Hw. destruct sep as [|c sr]; [congruence|].
  unfold choice_separator. destruct (Z.gtb_spec width 0); [|lia].
  cbv beta iota zeta.
  set (len := Z.of_nat (length title)).
  remember (if len >? width - 4 then len + 4 else width) as W eqn:HW.
  assert (HW4 : 4 <= W - len /\ W = Z.max width (len + 4)).
  { subst W. destruct (Z.gtb_spec len (width - 4)); lia. }
  exists ((W - len) / 2), (W - (W - len) / 2 - len - 2).
  pose proof (Z.div_mod (W - len) 2 ltac:(lia)) as Hdm.
  pose proof (Z.mod_pos_bound (W - len) 2 ltac:(lia)) as Hmb.
  split; [reflexivity|]. split; [lia|]. split; [lia|]. split; [lia|].
  intros H1. rewrite !length_app, !str_mul_length, H1. simpl length. fold len. lia.
Qed.

Lemma choice_separator_layout_witness :
  ([9472] <> [] /\ 0 < 30) /\
  exists first second,
    choice_separator (s2l "Remotes") 30 [9472]
      = AOk (str_mul [9472] first ++ [32] ++ s2l "Remotes" ++ [32] ++ str_mul [9472] second) /\
    0 <= second /\ (first = second + 1 \/ first = second + 2) /\
    first + second + Z.of_nat (length (s2l "Remotes")) + 2
      = Z.max 30 (Z.of_nat (length (s2l "Remotes")) + 4) /\
    (length [9472] = 1%nat ->
     Z.of_nat (length (str_mul [9472] first ++ [32] ++ s2l "Remotes" ++ [32] ++ str_mul [9472] second))
     = Z.max 30 (Z.of_nat (length (s2l "Remotes")) + 4)).
Proof.
  assert (H1 : [9472] <> @nil Z) by discriminate.
  split; [split; [exact H1|lia]|].
  exact (choice_separator_layout (s2l "Remotes") 30 [9472] H1 ltac:(lia)).
Defined.

(** ** Loading the configuration *)

Lemma default_config_keys (k : pystr) :
  In k (map fst DEFAULT_CHOICES) -> is_Some (DEFAULT_CONFIG !! k).
Proof.
  simpl. intros [<-|[<-|[<-|[<-|[]]]]]; eexists; vm_compute; reflexivity.
Qed.

Lemma load_config_defaults (safe_load : pystr -> YamlDoc) (fs : FS) (config : Config) (k : pystr) :
  load_config safe_load fs = Some config -> is_Some (DEFAULT_CONFIG !! k) -> is_Some (config !! k).
Proof.
  unfold load_config. intros Hl Hd.
  destruct (config_yaml fs) as [text|]; [|injection Hl as <-; exact Hd].
  destruct (safe_load text) as [m| | |]; try discriminate. injection Hl as <-.
  destruct (m !! k) as [b|] eqn:E.
  - exists b. now apply lookup_union_Some_l.
  - assert (Hu : (m ∪ DEFAULT_CONFIG) !! k = DEFAULT_CONFIG !! k) by (apply lookup_union_r; exact E).
    rewrite Hu. exact Hd.
Qed.

(** A configuration returned by [load_config] holds every key of
    [DEFAULT_CONFIG], so [commit_prompt] never raises [KeyError] on
    it. *)
Theorem load_config_commit_prompt_no_key_error (safe_load : pystr -> YamlDoc) (fs : FS)
  (config : Config) (inp : PromptInput) (k : pystr) :
  load_config safe_load fs = Some config -> commit_prompt config inp <> KeyError k.
Proof.
  intros Hl.
  assert (Hk : forall k', In k' (map fst DEFAULT_CHOICES) -> is_Some (config !! k')).
  { intros k' Hin. eapply load_config_defaults; [exact Hl|]. now apply default_config_keys. }
  destruct (Hk (s2l "skip_scope") ltac:(simpl; tauto)) as [b1 E1].
  destruct (Hk (s2l "capitalize_title") ltac:(simpl; tauto)) as [b2 E2].
  destruct (Hk (s2l "skip_message") ltac:(simpl; tauto)) as [b3 E3].
  unfold commit_prompt, get_cfg. rewrite E1, E2, E3. cbn [bind_out].
  destruct (first_valid title_validate (in_titles inp)); discriminate.
Qed.

Lemma load_config_commit_prompt_no_key_error_witness :
  load_config (fun _ => YMapping ∅) {| config_yaml := Some []; app_path_exists := true; app_parent_exists := true;
                 config_path := s2l "/home/user/.config/gitmopy/config.yaml" |}
    = Some DEFAULT_CONFIG /\
  commit_prompt DEFAULT_CONFIG
    {| in_emoji := [10024]; in_scope := []; in_titles := [s2l "Add"]; in_message := [] |}
  <> KeyError (s2l "skip_scope").
Proof.
  assert (H : load_config (fun _ => YMapping ∅) {| config_yaml := Some []; app_path_exists := true; app_parent_exists := true;
                 config_path := s2l "/home/user/.config/gitmopy/config.yaml" |}
              = Some DEFAULT_CONFIG).
  { vm_compute. reflexivity. }
  split; [exact H|].
  exact (load_config_commit_prompt_no_key_error (fun _ => YMapping ∅)
           {| config_yaml := Some []; app_path_exists := true; app_parent_exists := true;
                 config_path := s2l "/home/user/.config/gitmopy/config.yaml" |} DEFAULT_CONFIG _ _ H).
Defined.

(** ** [setup_prompt] *)

Ltac key_neq := let H := fresh in intros H; vm_compute in H; discriminate H.

(** [setup_prompt] shows each of the four choices pre-ticked as in the
    loaded configuration (or as its default when absent), then saves the
    loaded configuration in which each of the four options is true
    exactly when the user left it ticked; every other key of the loaded
    configuration is saved unchanged. *)
Theorem setup_prompt_saves_selection (safe_load : pystr -> YamlDoc) (fs : FS)
  (selected : list pystr) (config : Config) :
  load_config safe_load fs = Some config ->
  exists written,
    setup_prompt safe_load fs selected =
      Some (map (fun c => (fst c, match config !! fst c with Some b => b | None => snd c end))
              DEFAULT_CHOICES, save_config written fs) /\
    (forall k, In k (map fst DEFAULT_CHOICES) -> written !! k = Some (mem k selected)) /\
    (forall k, ~ In k (map fst DEFAULT_CHOICES) -> written !! k = config !! k).
Proof.
  intros Hl. unfold setup_prompt. rewrite Hl.
  eexists. split; [reflexivity|].
  cbn [fold_left map DEFAULT_CHOICES fst snd]. unfold Config in *. split.
  - intros k Hk. simpl in Hk.
    destruct Hk as [<-|[<-|[<-|[<-|[]]]]];
      repeat (first [rewrite lookup_insert_eq; reflexivity
                    |rewrite lookup_insert_ne by key_neq]).
  - intros k Hk. simpl in Hk.
    rewrite !lookup_insert_ne; [reflexivity|..]; intros E; apply Hk; rewrite <- E; tauto.
Qed.

Lemma setup_prompt_saves_selection_witness :
  load_config (fun _ => YMapping ∅) {| config_yaml := Some []; app_path_exists := true; app_parent_exists := true;
                 config_path := s2l "/home/user/.config/gitmopy/config.yaml" |}
    = Some DEFAULT_CONFIG /\
  exists written,
    setup_prompt (fun _ => YMapping ∅) {| config_yaml := Some []; app_path_exists := true; app_parent_exists := true;
                 config_path := s2l "/home/user/.config/gitmopy/config.yaml" |}
      [s2l "skip_scope"] =
      Some (map (fun c => (fst c, match DEFAULT_CONFIG !! fst c with Some b => b | None => snd c end))
              DEFAULT_CHOICES,
            save_config written {| config_yaml := Some []; app_path_exists := true; app_parent_exists := true;
                 config_path := s2l "/home/user/.config/gitmopy/config.yaml" |}) /\
    (forall k, In k (map fst DEFAULT_CHOICES) -> written !! k = Some (mem k [s2l "skip_scope"])) /\
    (forall k, ~ In k (map fst DEFAULT_CHOICES) -> written !! k = DEFAULT_CONFIG !! k).
Proof.
  assert (H : load_config (fun _ => YMapping ∅) {| config_yaml := Some []; app_path_exists := true; app_parent_exists := true;
                 config_path := s2l "/home/user/.config/gitmopy/config.yaml" |}
              = Some DEFAULT_CONFIG) by (vm_compute; reflexivity).
  split; [exact H|].
  exact (setup_prompt_saves_selection (fun _ => YMapping ∅)
           {| config_yaml := Some []; app_path_exists := true; app_parent_exists := true;
                 config_path := s2l "/home/user/.config/gitmopy/config.yaml" |} [s2l "skip_scope"] DEFAULT_CONFIG H).
Defined.

(** ** [format_remotes_diff] and the menu of [should_commit_again] *)

Lemma contains_infix_inv (s t : pystr) :
  contains s t = true -> exists pre post, s = pre ++ t ++ post.
Proof.
  induction s as [|c s IH]; intros H.
  - destruct t; [|discriminate]. now exists [], [].
  - rewrite contains_cons in H. apply orb_true_iff in H as [H|H].
    + apply startswith_inv in H. exists [], (skipn (length t) (c :: s)). exact H.
    + destruct (IH H) as [pre [post ->]]. now exists (c :: pre), post.
Qed.

Lemma contains_sub (s p x q : pystr) :
  contains s (p ++ x ++ q) = true -> contains s x = true.
Proof.
  intros H. apply contains_infix_inv in H as [pre [post ->]].
  replace (pre ++ (p ++ x ++ q) ++ post) with ((pre ++ p) ++ x ++ (q ++ post))
    by now rewrite <- !app_assoc.
  apply contains_infix.
Qed.

Lemma format_remotes_diff_missing (b : pystr) (states : list (pystr * RemoteState)) :
  List.NoDup (map fst states) ->
  exists out, format_remotes_diff b (map (revs_of b) states) = Some out /\
    (out = [] <-> Forall (fun p => snd p = Tracking 0 0) states) /\
    (forall n, In (n, Missing) states ->
       contains out (s2l "remote " ++ n ++ s2l " does not have a branch ") = true).
Proof.
  intros Hnd. unfold format_remotes_diff.
  rewrite (commits_behind_states b states Hnd), (commits_ahead_states b states Hnd).
  set (BL := map (fun p => (fst p, match snd p with Tracking bh _ => BInt bh
                                                   | Missing => NoBranch end)) states).
  set (AL := flat_map (fun p => match snd p with Tracking _ ah => [(fst p, ah)]
                                               | Missing => [] end) states).
  assert (HBL : forall n st, In (n, st) states ->
            dict_get BL n = Some (match st with Tracking bh _ => BInt bh | Missing => NoBranch end)).
  { intros n st Hin. apply dict_get_nodup_in.
    - subst BL. rewrite map_map. exact Hnd.
    - subst BL. apply in_map_iff. exists (n, st). split; [reflexivity|exact Hin]. }
  assert (HAL : forall n bh ah, In (n, Tracking bh ah) states -> dict_get AL n = Some ah).
  { intros n bh ah Hin. apply dict_get_nodup_in.
    - now apply ahead_keys_nodup.
    - apply in_flat_map. exists (n, Tracking bh ah). split; [exact Hin|left; reflexivity]. }
  assert (Hsome : forall r, In r (map rr_name (map (revs_of b) states)) ->
                  exists p, diff_piece BL AL b r = Some p).
  { rewrite map_map. intros r Hr. apply in_map_iff in Hr as [[n st] [E Hin]].
    destruct st as [bh ah|]; simpl in E; subst r; unfold diff_piece; rewrite (HBL _ _ Hin).
    - rewrite (HAL _ _ _ Hin). eexists. reflexivity.
    - eexists. reflexivity. }
  destruct (diff_lines_all BL AL b _ Hsome) as [q [Hq Hinq]].
  pose proof (banner_condition_states states) as Hcond. rewrite <- diff_total_states in Hcond.
  fold BL AL in Hcond.
  destruct (Nat.eqb (diff_total BL AL) 0 && match no_branch BL with [] => true | _ => false end)
    eqn:Econd.
  - assert (Hall : Forall (fun p => snd p = Tracking 0 0) states).
    { apply Hcond. apply andb_true_iff in Econd as [E1 E2]. apply Nat.eqb_eq in E1.
      split; [exact E1|]. now destruct (no_branch BL). }
    exists []. split; [reflexivity|]. split; [tauto|].
    intros n Hin. rewrite List.Forall_forall in Hall. specialize (Hall (n, Missing) Hin).
    discriminate.
  - eexists. rewrite Hq. split; [reflexivity|]. split.
    + split; [intros H; simpl in H; discriminate|].
      intros Hall. apply Hcond in Hall as [E1 E2]. rewrite E1, E2 in Econd. discriminate.
    + intros n Hin.
      assert (Hn : In n (map rr_name (map (revs_of b) states))).
      { rewrite map_map. apply in_map_iff. exists (n, Missing). split; [reflexivity|exact Hin]. }
      assert (Hp : diff_piece BL AL b n
                   = Some (col (s2l "remote " ++ n ++ s2l " does not have a branch " ++ b ++ [10])
                             "y" false)).
      { unfold diff_piece. rewrite (HBL _ _ Hin). reflexivity. }
      destruct (Hinq n _ Hn Hp) as [pre [post ->]].
      rewrite !app_assoc. apply contains_app_l. rewrite <- !app_assoc.
      apply contains_app_r. apply contains_app_r. apply contains_app_r. apply contains_app_r.
      apply contains_app_r. apply missing_line_contains.
Qed.

(** The menu [should_commit_again] offers after a commit, for remotes
    with distinct names: with every remote level with the branch it is
    only "Commit again" and "Quit"; when some remote lacks the branch it
    offers "Push" but never "Sync"; as soon as some remote differs, "Push"
    is offered. *)
Theorem what_now_menu_remotes (b : pystr) (states : list (pystr * RemoteState)) :
  List.NoDup (map fst states) ->
  exists out, format_remotes_diff b (map (revs_of b) states) = Some out /\
    (Forall (fun p => snd p = Tracking 0 0) states ->
       map fst (what_now_choices out) = [s2l "c"; s2l "q"]) /\
    (In Missing (map snd states) ->
       map fst (what_now_choices out) = [s2l "c"; s2l "p"; s2l "q"]) /\
    (~ Forall (fun p => snd p = Tracking 0 0) states ->
       In (s2l "p") (map fst (what_now_choices out))).
Proof.
  intros Hnd. destruct (format_remotes_diff_missing b states Hnd) as [out [Hf [Hempty Hmiss]]].
  exists out. split; [exact Hf|]. split; [|split].
  - intros Hall. apply Hempty in Hall. subst out. vm_compute. reflexivity.
  - intros Hm. apply in_map_iff in Hm as [[n st] [E Hin]]. simpl in E. subst st.
    pose proof (Hmiss n Hin) as Hc.
    assert (E : s2l "remote " ++ n ++ s2l " does not have a branch "
                = (s2l "remote " ++ n ++ s2l " ") ++ s2l "does not have a branch" ++ s2l " ").
    { rewrite <- !app_assoc. reflexivity. }
    rewrite E in Hc. apply contains_sub in Hc.
    destruct out as [|c r]; [discriminate|].
    unfold what_now_choices. rewrite Hc. vm_compute. reflexivity.
  - intros Hnot. destruct out as [|c r]; [exfalso; apply Hnot, Hempty; reflexivity|].
    unfold what_now_choices.
    destruct (negb (contains (c :: r) (s2l "does not have a branch")));
      vm_compute; right; left; reflexivity.
Qed.

Lemma what_now_menu_remotes_witness :
  List.NoDup (map fst [(s2l "origin", Missing); (s2l "backup", Tracking 0 0)]) /\
  exists out, format_remotes_diff (s2l "main")
                (map (revs_of (s2l "main")) [(s2l "origin", Missing); (s2l "backup", Tracking 0 0)])
              = Some out /\
    (Forall (fun p => snd p = Tracking 0 0) [(s2l "origin", Missing); (s2l "backup", Tracking 0 0)] ->
       map fst (what_now_choices out) = [s2l "c"; s2l "q"]) /\
    (In Missing (map snd [(s2l "origin", Missing); (s2l "backup", Tracking 0 0)]) ->
       map fst (what_now_choices out) = [s2l "c"; s2l "p"; s2l "q"]) /\
    (~ Forall (fun p => snd p = Tracking 0 0) [(s2l "origin", Missing); (s2l "backup", Tracking 0 0)] ->
       In (s2l "p") (map fst (what_now_choices out))).
Proof.
  assert (H : List.NoDup (map fst [(s2l "origin", Missing); (s2l "backup", Tracking 0 0)])).
  { repeat constructor; vm_compute; intuition discriminate. }
  split; [exact H|]. exact (what_now_menu_remotes (s2l "main") _ H).
Defined.

Lemma nodup_map_eq {A B} (f : A -> B) (l : list A) (x y : A) :
  List.NoDup (map f l) -> In x l -> In y l -> f x = f y -> x = y.
Proof.
  induction l as [|a l IH]; intros Hnd Hx Hy E; [destruct Hx|].
  simpl in Hnd. apply NoDup_cons_iff in Hnd as [Hn Hnd].
  destruct Hx as [<-|Hx], Hy as [<-|Hy]; auto.
  - exfalso. apply Hn. rewrite E. now apply in_map.
  - exfalso. apply Hn. rewrite <- E. now apply in_map.
Qed.

Lemma commits_behind_skip (remotes : list RemoteRevs) (k : pystr) :
  (forall x, In x remotes -> rr_name x = k ->
     exists m, rr_behind x = RevError m /\ contains m (s2l "fatal: bad revision") = false) ->
  dict_get (commits_behind remotes) k = None.
Proof.
  intros H. unfold commits_behind.
  assert (G : forall l acc, dict_get acc k = None ->
    (forall x, In x l -> rr_name x = k ->
       exists m, rr_behind x = RevError m /\ contains m (s2l "fatal: bad revision") = false) ->
    dict_get (fold_left (fun behinds r =>
      match rr_behind r with
      | Count n => dict_set behinds (rr_name r) (BInt n)
      | RevError msg =>
          if contains msg (s2l "fatal: bad revision")
          then dict_set behinds (rr_name r) NoBranch
          else behinds
      end) l acc) k = None).
  { induction l as [|a l IH]; intros acc Hacc Hl; [exact Hacc|]. simpl.
    apply IH; [|intros x Hx; apply Hl; now right].
    destruct (str_eqb (rr_name a) k) eqn:E.
    - apply str_eqb_spec in E. destruct (Hl a (or_introl eq_refl) E) as [m [Em Ec]].
      rewrite Em, Ec. exact Hacc.
    - destruct (rr_behind a) as [n|m]; [|destruct (contains m (s2l "fatal: bad revision"))];
        try rewrite dict_get_set, E; exact Hacc. }
  apply G; [reflexivity|exact H].
Qed.

Lemma diff_lines_none (behind : list (pystr * Behind)) (ahead : list (pystr * nat)) (b : pystr)
  (rs : list pystr) (n : pystr) :
  In n rs -> diff_piece behind ahead b n = None -> diff_lines behind ahead b rs = None.
Proof.
  induction rs as [|r rs IH]; intros Hin Hp; [destruct Hin|]. simpl.
  destruct Hin as [<-|Hin]; [now rewrite Hp|].
  destruct (diff_piece behind ahead b r); [|reflexivity]. now rewrite IH.
Qed.

(** When the query [b..r/b] of [commits_behind] fails for a remote
    with an error that is not ["fatal: bad revision"], the remote is left
    out of [behinds]: [format_remotes_diff] then raises [KeyError]
    exactly when there is something to report for the other remotes, and
    otherwise returns the empty text, the failure unreported. *)
Theorem format_remotes_diff_key_error (b : pystr) (remotes : list RemoteRevs)
  (r : RemoteRevs) (msg : pystr) :
  List.NoDup (map rr_name remotes) -> In r remotes -> rr_behind r = RevError msg ->
  contains msg (s2l "fatal: bad revision") = false ->
  (format_remotes_diff b remotes = None <->
   diff_total (commits_behind remotes) (commits_ahead remotes) <> 0%nat \/
   no_branch (commits_behind remotes) <> []) /\
  (format_remotes_diff b remotes <> None -> format_remotes_diff b remotes = Some []).
Proof.
  intros Hnd Hr Hb Hm.
  assert (Hnone : dict_get (commits_behind remotes) (rr_name r) = None).
  { apply commits_behind_skip. intros x Hx E.
    assert (x = r) as -> by (eapply nodup_map_eq; eauto). now exists msg. }
  assert (Hd : diff_lines (commits_behind remotes) (commits_ahead remotes) b (map rr_name remotes)
               = None).
  { apply (diff_lines_none _ _ _ _ (rr_name r)); [now apply in_map|].
    unfold diff_piece. now rewrite Hnone. }
  unfold format_remotes_diff. cbv zeta. rewrite Hd.
  destruct (Nat.eqb (diff_total (commits_behind remotes) (commits_ahead remotes)) 0 &&
            match no_branch (commits_behind remotes) with [] => true | _ => false end) eqn:Ec.
  - apply andb_true_iff in Ec as [E1 E2]. apply Nat.eqb_eq in E1.
    split; [split; [discriminate|]|intros _; reflexivity].
    intros [H|H]; [contradiction|]. destruct (no_branch (commits_behind remotes)); [contradiction|discriminate].
  - split; [split; [intros _|reflexivity]|intros H; contradiction].
    apply andb_false_iff in Ec as [E|E]; [left; now apply Nat.eqb_neq|].
    right. intros E'. rewrite E' in E. discriminate.
Qed.

Lemma format_remotes_diff_key_error_witness :
  let r1 := {| rr_name := s2l "origin"; rr_behind := RevError (s2l "fatal: unable to access");
               rr_ahead := RevError (s2l "fatal: unable to access") |} in
  let r2 := {| rr_name := s2l "backup"; rr_behind := Count 2; rr_ahead := Count 0 |} in
  (List.NoDup (map rr_name [r1; r2]) /\ In r1 [r1; r2] /\
   rr_behind r1 = RevError (s2l "fatal: unable to access") /\
   contains (s2l "fatal: unable to access") (s2l "fatal: bad revision") = false) /\
  ((format_remotes_diff (s2l "main") [r1; r2] = None <->
    diff_total (commits_behind [r1; r2]) (commits_ahead [r1; r2]) <> 0%nat \/
    no_branch (commits_behind [r1; r2]) <> []) /\
   (format_remotes_diff (s2l "main") [r1; r2] <> None ->
    format_remotes_diff (s2l "main") [r1; r2] = Some [])).
Proof.
  intros r1 r2.
  assert (H1 : List.NoDup (map rr_name [r1; r2])).
  { repeat constructor; vm_compute; intuition discriminate. }
  assert (H2 : In r1 [r1; r2]) by now left.
  assert (H4 : contains (s2l "fatal: unable to access") (s2l "fatal: bad revision") = false)
    by (vm_compute; reflexivity).
  split; [split; [exact H1|split; [exact H2|split; [reflexivity|exact H4]]]|].
  exact (format_remotes_diff_key_error (s2l "main") [r1; r2] r1 _ H1 H2 eq_refl H4).
Defined.

(** ** [pull_cli], [push_cli] and the [--remote] values *)

Lemma in_pull_calls (sel l : list pystr) (branch r b : pystr) :
  In (r, b) (map (fun x => (x, branch)) (List.filter (fun x => mem x sel) l)) <->
  b = branch /\ In r l /\ In r sel.
Proof.
  rewrite in_map_iff. split.
  - intros [x [E Hx]]. injection E as -> ->. apply filter_In in Hx as [Hx Hm].
    apply mem_In in Hm. auto.
  - intros (-> & Hl & Hs). exists r. split; [reflexivity|].
    apply filter_In. split; [exact Hl|]. now apply mem_In.
Qed.

Lemma filter_mem_none (sel l : list pystr) :
  (forall a, In a sel -> ~ In a l) -> List.filter (fun x => mem x sel) l = [].
Proof.
  intros H. induction l as [|x l IH]; [reflexivity|]. simpl.
  destruct (mem x sel) eqn:E.
  - apply mem_In in E. exfalso. apply (H x E). now left.
  - apply IH. intros a Ha Hl. apply (H a Ha). now right.
Qed.

(** [pull_cli] runs [git pull <remote> <branch>] on the active branch,
    exactly for the remotes of the repository that are selected: the
    only remote when there is one, else the [--remote] values if any,
    else the remotes chosen in the prompt.  An empty choice aborts before
    any pull, and so does a repository without remotes. *)
Theorem pull_cli_pulls_selected (env : PullEnv) (repo : Repo) (branch : pystr)
  (args : list pystr) (r b : pystr) :
  In (r, b) (snd (pull_cli env repo branch args)) <->
  b = branch /\ In r (repo_remotes repo) /\
  (repo_remotes repo = [r] \/
   ((2 <= length (repo_remotes repo))%nat /\
    In r (match args with [] => pull_chosen env | _ :: _ => args end))).
Proof.
  unfold pull_cli. destruct (repo_remotes repo) as [|r0 [|r1 rest]].
  - simpl. split; [tauto|intros (_ & [] & _)].
  - cbn [snd]. rewrite in_pull_calls. simpl. split.
    + intros (Hb & [<-|[]] & _). auto.
    + intros (Hb & [<-|[]] & _). auto.
  - destruct args as [|a args'].
    + destruct (pull_chosen env) as [|c cs] eqn:Ec.
      * simpl. split; [tauto|]. intros (_ & _ & [H|[_ []]]). discriminate.
      * cbn [snd]. rewrite in_pull_calls. simpl length. split.
        -- intros (Hb & Hl & Hs). repeat split; auto. right. split; [lia|exact Hs].
        -- intros (Hb & Hl & [H|[_ Hs]]); [discriminate|auto].
    + cbn [snd]. rewrite in_pull_calls. simpl length. split.
      * intros (Hb & Hl & Hs). repeat split; auto. right. split; [lia|exact Hs].
      * intros (Hb & Hl & [H|[_ Hs]]); [discriminate|auto].
Qed.

(** A failed pull is reported by [CatchRemoteException] with the text
    it uses for pushes: ["could not push to <remote>"].  With a single
    remote whose pull raises [GitCommandError], [pull_cli] prints the
    empty line, that message and the [stderr], and no "Pulled from"
    line. *)
Theorem pull_cli_error_says_push (env : PullEnv) (repo : Repo) (branch : pystr)
  (args : list pystr) (r e : pystr) :
  repo_remotes repo = [r] -> pull_raises env r = Some (GitCommandError e) ->
  pull_cli env repo branch args =
    (Finished [[]; s2l "[bold red]Error:[/bold red] could not push to " ++ r ++ s2l ":";
               s2l "[red]" ++ e ++ s2l "[/red]"], [(r, branch)]).
Proof.
  intros Hr He. unfold pull_cli. rewrite Hr.
  assert (Hm : mem r [r] = true) by (apply mem_In; now left).
  cbn [List.filter]. rewrite Hm. cbn [flat_map map app].
  unfold pull_one, with_cre, cre_exit, cre_init. rewrite He. cbn. reflexivity.
Qed.

Lemma pull_cli_error_says_push_witness :
  let env := {| pull_chosen := [];
                pull_raises := fun _ => Some (GitCommandError (s2l "fatal: no such ref")) |} in
  let repo := {| repo_remotes := [s2l "origin"]; repo_refs := [] |} in
  (repo_remotes repo = [s2l "origin"] /\
   pull_raises env (s2l "origin") = Some (GitCommandError (s2l "fatal: no such ref"))) /\
  pull_cli env repo (s2l "main") [] =
    (Finished [[]; s2l "[bold red]Error:[/bold red] could not push to " ++ s2l "origin" ++ s2l ":";
               s2l "[red]" ++ s2l "fatal: no such ref" ++ s2l "[/red]"], [(s2l "origin", s2l "main")]).
Proof.
  intros env repo. split; [split; reflexivity|].
  exact (pull_cli_error_says_push env repo (s2l "main") [] (s2l "origin") _ eq_refl eq_refl).
Defined.

(** With exactly one remote, the [--remote] values are ignored: both
    [push_cli] and [pull_cli] act on that remote, whatever the values
    name; [push_cli] raises only what the fetch of that remote raises. *)
Theorem single_remote_ignores_remote_args (fetch_all : Repo -> Repo)
  (fetch_raises : pystr -> option Exc) (env : PushEnv) (penv : PullEnv) (repo : Repo)
  (branch : pystr) (args : list pystr) (r0 : pystr) :
  repo_remotes repo = [r0] ->
  push_cli_call fetch_all fetch_raises env repo branch args
  = match fetch_raises r0 with
    | Some e => PushRaised e
    | None => PushReturned (Finished (push_one env (has_upstreams fetch_all repo [r0] branch)
                                        branch r0))
    end /\
  pull_cli penv repo branch args = (Finished ([] :: pull_one penv r0), [(r0, branch)]).
Proof.
  intros Hr. assert (Hm : mem r0 [r0] = true) by (apply mem_In; now left).
  split.
  - unfold push_cli_call. rewrite Hr. cbn [select_remotes fetch_all_raises].
    destruct (fetch_raises r0) as [e|]; [reflexivity|]. f_equal.
    unfold push_cli, select_remotes. rewrite Hr. cbn [List.filter]. rewrite Hm.
    cbn [flat_map]. now rewrite app_nil_r.
  - unfold pull_cli. rewrite Hr. cbn [List.filter]. rewrite Hm.
    cbn [flat_map map]. now rewrite app_nil_r.
Qed.

Lemma single_remote_ignores_remote_args_witness :
  let env := {| chosen_remotes := []; set_upstream_answer := fun _ => true;
                push_raises := fun _ _ => None |} in
  let penv := {| pull_chosen := []; pull_raises := fun _ => None |} in
  let repo := {| repo_remotes := [s2l "origin"]; repo_refs := [] |} in
  repo_remotes repo = [s2l "origin"] /\
  push_cli_call (fun r => r) (fun _ => None) env repo (s2l "main") [s2l "backup"]
  = PushReturned (Finished (push_one env (has_upstreams (fun r => r) repo [s2l "origin"] (s2l "main"))
                              (s2l "main") (s2l "origin"))) /\
  pull_cli penv repo (s2l "main") [s2l "backup"]
  = (Finished ([] :: pull_one penv (s2l "origin")), [(s2l "origin", s2l "main")]).
Proof.
  intros env penv repo. split; [reflexivity|].
  exact (single_remote_ignores_remote_args (fun r => r) (fun _ => None) env penv repo
           (s2l "main") [s2l "backup"] (s2l "origin") eq_refl).
Defined.

(** With several remotes, [--remote] values none of which names a
    remote of the repository are not reported: [pull_cli] prints only
    its empty line and pulls nothing; [push_cli] still fetches every
    remote, raises what a failed fetch raises, and otherwise prints
    nothing and pushes nothing. *)
Theorem unknown_remote_args_ignored (fetch_all : Repo -> Repo)
  (fetch_raises : pystr -> option Exc) (env : PushEnv) (penv : PullEnv) (repo : Repo)
  (branch : pystr) (args : list pystr) :
  (2 <= length (repo_remotes repo))%nat -> args <> [] ->
  (forall a, In a args -> ~ In a (repo_remotes repo)) ->
  push_cli_call fetch_all fetch_raises env repo branch args
  = match fetch_all_raises fetch_raises (repo_remotes repo) with
    | Some e => PushRaised e
    | None => PushReturned (Finished [])
    end /\
  pull_cli penv repo branch args = (Finished [[]], []).
Proof.
  intros Hlen Hargs Hout. pose proof (filter_mem_none args (repo_remotes repo) Hout) as Hf.
  unfold push_cli_call, push_cli, pull_cli, select_remotes.
  destruct (repo_remotes repo) as [|r0 [|r1 rest]]; simpl in Hlen; try lia.
  destruct args as [|a args']; [congruence|].
  cbv beta iota zeta. rewrite Hf. split; [|reflexivity].
  destruct (fetch_all_raises fetch_raises (r0 :: r1 :: rest)); reflexivity.
Qed.

Lemma unknown_remote_args_ignored_witness :
  let env := {| chosen_remotes := []; set_upstream_answer := fun _ => true;
                push_raises := fun _ _ => None |} in
  let penv := {| pull_chosen := []; pull_raises := fun _ => None |} in
  let repo := {| repo_remotes := [s2l "origin"; s2l "backup"]; repo_refs := [] |} in
  let fetch := fun r => if str_eqb r (s2l "backup") then Some (GitCommandError (s2l "denied"))
                        else None in
  ((2 <= length (repo_remotes repo))%nat /\ [s2l "upstream"] <> [] /\
   (forall a, In a [s2l "upstream"] -> ~ In a (repo_remotes repo))) /\
  push_cli_call (fun r => r) fetch env repo (s2l "main") [s2l "upstream"]
  = PushRaised (GitCommandError (s2l "denied")) /\
  pull_cli penv repo (s2l "main") [s2l "upstream"] = (Finished [[]], []).
Proof.
  intros env penv repo fetch.
  assert (H1 : (2 <= length (repo_remotes repo))%nat) by (simpl; lia).
  assert (H2 : [s2l "upstream"] <> []) by discriminate.
  assert (H3 : forall a, In a [s2l "upstream"] -> ~ In a (repo_remotes repo)).
  { intros a [<-|[]]. vm_compute. intuition discriminate. }
  split; [split; [exact H1|split; [exact H2|exact H3]]|].
  exact (unknown_remote_args_ignored (fun r => r) fetch env penv repo (s2l "main") _ H1 H2 H3).
Defined.

(** ** Emoji order and the history *)

Lemma filter_all_false {A} (p : A -> bool) (l : list A) :
  (forall z, In z l -> p z = false) -> List.filter p l = [].
Proof.
  induction l as [|x l IH]; intros H; [reflexivity|]. simpl.
  rewrite (H x (or_introl eq_refl)). apply IH. intros z Hz. apply H. now right.
Qed.

Section KeySort.

Context {A : Type} (f : A -> Z).

Local Abbreviation ins := (insert_by (fun y x => f x <=? f y)).
Local Abbreviation R := (fun a b : A => f b <= f a).

Lemma insert_key_perm (x : A) (l : list A) : Permutation (ins x l) (x :: l).
Proof.
  induction l as [|y l IH]; simpl; [reflexivity|].
  destruct (f x <=? f y); [|reflexivity].
  rewrite IH. apply perm_swap.
Qed.

Lemma insert_key_sorted (x : A) (l : list A) : Sorted R l -> Sorted R (ins x l).
Proof.
  induction l as [|y l IH]; intros Hs; simpl; [repeat constructor|].
  apply Sorted_inv in Hs as [Hs Hd].
  destruct (f x <=? f y) eqn:E.
  - apply Z.leb_le in E. constructor; [now apply IH|].
    destruct l as [|z l]; simpl; [constructor; exact E|].
    destruct (f x <=? f z); constructor; [now inversion Hd|exact E].
  - apply Z.leb_gt in E. constructor; [now constructor|]. constructor. lia.
Qed.

Lemma insert_key_filter (x : A) (l : list A) (k : Z) :
  StronglySorted R l ->
  List.filter (fun y => f y =? k) (ins x l)
  = List.filter (fun y => f y =? k) l ++ (if f x =? k then [x] else []).
Proof.
  induction l as [|y l IH]; intros Hs; simpl.
  - now destruct (f x =? k).
  - apply StronglySorted_inv in Hs as [Hs Hall]. destruct (f x <=? f y) eqn:E.
    + simpl. rewrite IH by exact Hs. now destruct (f y =? k).
    + apply Z.leb_gt in E. cbn [List.filter].
      destruct (f x =? k) eqn:Ex.
      * apply Z.eqb_eq in Ex.
        assert (Hnil : List.filter (fun y0 => f y0 =? k) (y :: l) = []).
        { apply filter_all_false. intros z [<-|Hz]; apply Z.eqb_neq; [lia|].
          rewrite List.Forall_forall in Hall. specialize (Hall z Hz). lia. }
        cbn [List.filter] in Hnil. rewrite Hnil. reflexivity.
      * now rewrite app_nil_r.
Qed.

Lemma sort_key_props (l : list A) :
  Permutation (sort_by (fun y x => f x <=? f y) l) l /\
  Sorted R (sort_by (fun y x => f x <=? f y) l) /\
  (forall k, List.filter (fun y => f y =? k) (sort_by (fun y x => f x <=? f y) l)
             = List.filter (fun y => f y =? k) l).
Proof.
  unfold sort_by.
  assert (H : forall l acc, Sorted R acc ->
     Permutation (fold_left (fun acc x => ins x acc) l acc) (l ++ acc) /\
     Sorted R (fold_left (fun acc x => ins x acc) l acc) /\
     (forall k, List.filter (fun y => f y =? k) (fold_left (fun acc x => ins x acc) l acc)
                = List.filter (fun y => f y =? k) acc ++ List.filter (fun y => f y =? k) l)).
  { induction l0 as [|x l0 IH]; intros acc Hs; simpl.
    - split; [reflexivity|]. split; [exact Hs|]. intros k. now rewrite app_nil_r.
    - destruct (IH _ (insert_key_sorted x acc Hs)) as (Hp & Hs' & Hf).
      split; [|split; [exact Hs'|]].
      + rewrite Hp, insert_key_perm. symmetry. apply Permutation_middle.
      + intros k. rewrite Hf, insert_key_filter.
        * rewrite <- app_assoc. now destruct (f x =? k).
        * apply Sorted_StronglySorted; [intros a b c; lia|exact Hs]. }
  destruct (H l [] (Sorted_nil _)) as (Hp & Hs & Hf). rewrite app_nil_r in Hp.
  split; [exact Hp|]. split; [exact Hs|]. intros k. rewrite Hf. reflexivity.
Qed.

End KeySort.

Lemma dater_fold_other (l : list HistoryEntry) (acc : list (pystr * Z)) (k : pystr) :
  (forall c, In c l -> h_emoji c <> k) ->
  dict_get (fold_left (fun d c => dict_set d (h_emoji c) (h_timestamp c)) l acc) k
  = dict_get acc k.
Proof.
  revert acc. induction l as [|c l IH]; intros acc H; [reflexivity|]. simpl.
  rewrite IH by (intros c' Hc; apply H; now right).
  rewrite dict_get_set. destruct (str_eqb (h_emoji c) k) eqn:E; [|reflexivity].
  apply str_eqb_spec in E. exfalso. exact (H c (or_introl eq_refl) E).
Qed.

Lemma dater_fold_values (l : list HistoryEntry) (acc : list (pystr * Z)) (k : pystr) (t : Z) :
  dict_get (fold_left (fun d c => dict_set d (h_emoji c) (h_timestamp c)) l acc) k = Some t ->
  dict_get acc k = Some t \/ exists c, In c l /\ h_timestamp c = t.
Proof.
  revert acc. induction l as [|c l IH]; intros acc H; [now left|]. simpl in H.
  destruct (IH _ H) as [H'|[c' [Hc' E]]]; [|right; exists c'; split; [now right|exact E]].
  rewrite dict_get_set in H'. destruct (str_eqb (h_emoji c) k); [|now left].
  right. exists c. split; [now left|congruence].
Qed.

(** The sort key of an emoji is the timestamp of the last entry of the
    history that uses it (a later entry overwrites an earlier one, even
    when its timestamp is smaller), and [0] for an emoji the history does
    not use. *)
Theorem emoji_key_last_use (history : list HistoryEntry) (x : Emoji) :
  (forall pre c post, history = pre ++ c :: post -> h_emoji c = e_emoji x ->
     (forall c', In c' post -> h_emoji c' <> e_emoji x) ->
     emoji_key (dater history) x = h_timestamp c) /\
  ((forall c, In c history -> h_emoji c <> e_emoji x) -> emoji_key (dater history) x = 0).
Proof.
  split.
  - intros pre c post -> Hc Hpost. unfold emoji_key, dater. rewrite fold_left_app.
    cbn [fold_left]. rewrite dater_fold_other by exact Hpost.
    rewrite dict_get_set, Hc, str_eqb_refl. reflexivity.
  - intros H. unfold emoji_key, dater. rewrite dater_fold_other by exact H. reflexivity.
Qed.

(** [sort_emojis_by_timestamp] reorders the emojis (a permutation) by
    descending sort key, and keeps in their original relative order the
    emojis with the same key, in particular all the emojis the history
    never uses. *)
Theorem sort_emojis_by_timestamp_spec (history : list HistoryEntry) (emojis : list Emoji) :
  Permutation (sort_emojis_by_timestamp history emojis) emojis /\
  Sorted (fun a b => emoji_key (dater history) b <= emoji_key (dater history) a)
    (sort_emojis_by_timestamp history emojis) /\
  (forall t, List.filter (fun x => emoji_key (dater history) x =? t)
                (sort_emojis_by_timestamp history emojis)
             = List.filter (fun x => emoji_key (dater history) x =? t) emojis).
Proof.
  unfold sort_emojis_by_timestamp. exact (sort_key_props (emoji_key (dater history)) emojis).
Qed.

(** After [save_to_history] of a commit at a time [now] later than every
    entry of the history (and positive), the emoji of that commit comes
    first in the sorted emoji list, if the list has it. *)
Theorem saved_emoji_sorts_first (history : list HistoryEntry) (d : CommitDict) (now : Z)
  (emojis : list Emoji) (x : Emoji) :
  In x emojis -> e_emoji x = emoji d -> 0 < now ->
  (forall c, In c history -> h_timestamp c < now) ->
  exists y rest, sort_emojis_by_timestamp (save_to_history history d now) emojis = y :: rest /\
    e_emoji y = emoji d.
Proof.
  intros Hx Hxe Hnow Hhist.
  set (key := emoji_key (dater (save_to_history history d now))).
  assert (Hkey : forall z, key z = if str_eqb (emoji d) (e_emoji z) then now
                                   else emoji_key (dater history) z).
  { intros z. unfold key, emoji_key, dater, save_to_history. rewrite fold_left_app.
    cbn [fold_left h_emoji h_timestamp history_entry]. rewrite dict_get_set.
    now destruct (str_eqb (emoji d) (e_emoji z)). }
  assert (Hother : forall z, e_emoji z <> emoji d -> key z < now).
  { intros z Hz. rewrite Hkey. destruct (str_eqb (emoji d) (e_emoji z)) eqn:E.
    { apply str_eqb_spec in E. congruence. }
    unfold emoji_key, dater.
    destruct (dict_get (fold_left (fun d c => dict_set d (h_emoji c) (h_timestamp c)) history [])
                (e_emoji z)) as [t|] eqn:Eg; [|exact Hnow].
    destruct (dater_fold_values _ _ _ _ Eg) as [H|[c [Hc <-]]]; [discriminate|].
    now apply Hhist. }
  assert (Hkx : key x = now) by (rewrite Hkey, Hxe, str_eqb_refl; reflexivity).
  destruct (sort_key_props key emojis) as (Hp & Hs & _).
  change (sort_emojis_by_timestamp (save_to_history history d now) emojis)
    with (sort_by (fun y x => key x <=? key y) emojis).
  destruct (sort_by (fun y x => key x <=? key y) emojis) as [|y rest] eqn:ES.
  - apply Permutation_nil in Hp. subst emojis. destruct Hx.
  - exists y, rest. split; [reflexivity|].
    destruct (str_eqb (e_emoji y) (emoji d)) eqn:E; [now apply str_eqb_spec|exfalso].
    apply str_eqb_false in E. pose proof (Hother y E) as Hy.
    apply (Permutation_in x (Permutation_sym Hp)) in Hx. destruct Hx as [<-|Hx]; [congruence|].
    apply Sorted_StronglySorted in Hs; [|intros a b c; lia].
    apply StronglySorted_inv in Hs as [_ Hall]. rewrite List.Forall_forall in Hall.
    specialize (Hall x Hx). cbv beta in Hall. lia.
Qed.

Lemma saved_emoji_sorts_first_witness :
  let d := {| emoji := [10024]; scope := []; title := s2l "Add"; message := [] |} in
  let x := {| e_emoji := [10024]; e_description := s2l "Introduce new features." |} in
  let y := {| e_emoji := [128027]; e_description := s2l "Fix a bug." |} in
  let h := [history_entry {| emoji := [128027]; scope := []; title := s2l "Fix"; message := [] |} 3] in
  (In x [y; x] /\ e_emoji x = emoji d /\ 0 < 5 /\ (forall c, In c h -> h_timestamp c < 5)) /\
  exists z rest, sort_emojis_by_timestamp (save_to_history h d 5) [y; x] = z :: rest /\
    e_emoji z = emoji d.
Proof.
  intros d x y h.
  assert (H1 : In x [y; x]) by (right; now left).
  assert (H4 : forall c, In c h -> h_timestamp c < 5) by (intros c [<-|[]]; simpl; lia).
  split; [split; [exact H1|split; [reflexivity|split; [lia|exact H4]]]|].
  exact (saved_emoji_sorts_first h d 5 [y; x] x H1 eq_refl ltac:(lia) H4).
Defined.

(** ** [git_add_prompt] *)

Lemma fold_append_map {A B} (g : A -> B) (l : list A) (acc : list B) :
  fold_left (fun ch s => ch ++ [g s]) l acc = acc ++ map g l.
Proof.
  revert acc. induction l as [|a l IH]; intros acc; simpl; [now rewrite app_nil_r|].
  rewrite IH, <- app_assoc. reflexivity.
Qed.

Lemma in_map_choice (tag : pystr) (l : list pystr) :
  ~ In Separator (map (fun s => Choice s (s ++ tag) true) l).
Proof. intros H. apply in_map_iff in H as [x [E _]]. discriminate. Qed.

(** [git_add_prompt] offers every unstaged file, then every untracked
    file, each one ticked.  A separator is added after the unstaged files
    when there are some, and only then; with unstaged files and no
    untracked file, the list of choices ends with that separator. *)
Theorem git_add_prompt_choices (status : FilesStatus) :
  flat_map (fun it => match it with Choice v _ _ => [v] | Separator => [] end)
    (git_add_choices status) = unstaged status ++ untracked status /\
  (forall v n e, In (Choice v n e) (git_add_choices status) -> e = true) /\
  (In Separator (git_add_choices status) <-> unstaged status <> []) /\
  ((exists pre, git_add_choices status = pre ++ [Separator]) <->
   unstaged status <> [] /\ untracked status = []).
Proof.
  unfold git_add_choices. rewrite !fold_append_map. cbn [app]. rewrite length_map.
  set (U := fun s => Choice s (s ++ s2l " -- unstaged") true).
  set (T := fun s => Choice s (s ++ s2l " -- untracked") true).
  assert (Hflat : forall tag l,
    flat_map (fun it => match it with Choice v _ _ => [v] | Separator => [] end)
      (map (fun s => Choice s (s ++ tag) true) l) = l).
  { intros tag l. induction l as [|a l IH]; [reflexivity|]. simpl. now rewrite IH. }
  assert (Hen : forall tag l v n e,
    In (Choice v n e) (map (fun s => Choice s (s ++ tag) true) l) -> e = true).
  { intros tag l v n e H. apply in_map_iff in H as [x [E _]]. now injection E. }
  assert (Hend : forall X l, l <> [] ->
    ~ exists pre, X ++ map T l = pre ++ [Separator]).
  { intros X l Hl [pre E]. destruct (exists_last Hl) as [l' [z ->]].
    rewrite map_app, app_assoc in E. apply app_inj_tail in E as [_ E]. discriminate. }
  destruct (unstaged status) as [|u us]; cbn [length Nat.ltb Nat.leb].
  - cbn [map app]. split; [apply Hflat|]. split; [apply Hen|]. split.
    + split; [intros H; now apply in_map_choice in H|congruence].
    + split; [|intros [[] _]; reflexivity].
      intros [pre E]. exfalso. apply (in_map_choice (s2l " -- untracked") (untracked status)).
      fold T. rewrite E. apply in_or_app. right. now left.
  - split.
    + rewrite !flat_map_app. fold U T. unfold U, T. rewrite !Hflat. simpl.
      now rewrite app_nil_r.
    + split.
      * intros v n e H. apply in_app_or in H as [H|H]; [apply in_app_or in H as [H|[H|[]]]|].
        -- exact (Hen _ _ _ _ _ H).
        -- discriminate.
        -- exact (Hen _ _ _ _ _ H).
      * split.
        -- split; [discriminate|]. intros _. apply in_or_app. left. apply in_or_app.
           right. now left.
        -- split.
           ++ intros H. split; [discriminate|].
              destruct (untracked status) as [|t ts] eqn:Et; [reflexivity|exfalso].
              rewrite <- Et in H. apply (Hend _ (untracked status) ltac:(congruence) H).
           ++ intros [_ ->]. exists (map U (u :: us)). now rewrite app_nil_r.
Qed.
